(** * graphx: identifier index, adjacency store and breadth-first search

    A shallow embedding of [graphx.py] (classes [Hash], [Graph], [BFS]) and
    the properties of its specification.

    Python objects are mutable; every method is embedded as a function from
    the object's state to an outcome and the state the call leaves behind,
    so that what a call has already written when it raises stays visible. *)

From stdpp Require Import base gmap list.

Open Scope Z_scope.

(** ** Values, exceptions and outcomes *)

(** The arguments the methods receive.  Node keys are annotated
    [Union[int, Tuple[int, int], Tuple[int, int, int]]]; a tuple of any
    length is kept so that the length test of [Hash.hash] can be written as
    in the source, and [POther] stands for a value that is neither an [int]
    nor a [tuple] (a string, [None], a float, a list). *)
Inductive pyval : Type :=
| PInt (x : Z)
| PTuple (xs : list Z)
| POther.

Inductive exn : Type :=
| ValueError
| TypeError
| IndexError
| KeyError.

#[global] Instance exn_eq_dec : EqDecision exn.
Proof. solve_decision. Defined.

(** [OutOfFuel] is the outcome of a loop unrolled under a bound when the
    bound is reached; [BFS._run_internal] below never produces it. *)
Inductive outcome (A : Type) : Type :=
| Ok (a : A)
| Raise (e : exn)
| OutOfFuel.
Arguments Ok {A} a.
Arguments Raise {A} e.
Arguments OutOfFuel {A}.

#[global] Instance outcome_eq_dec {A} `{EqDecision A} : EqDecision (outcome A).
Proof. solve_decision. Defined.

(** State and exception monad: the state after a raise is returned too. *)
Definition M (S A : Type) : Type := S → outcome A * S.

Definition ret {S A} (a : A) : M S A := λ s, (Ok a, s).

Definition raise {S A} (e : exn) : M S A := λ s, (Raise e, s).

Definition bind {S A B} (m : M S A) (k : A → M S B) : M S B :=
  λ s, match m s with
       | (Ok a, s') => k a s'
       | (Raise e, s') => (Raise e, s')
       | (OutOfFuel, s') => (OutOfFuel, s')
       end.

Notation "'let!' x := m 'in' k" := (bind m (λ x, k))
  (at level 10, x pattern, m at level 100, k at level 200,
   format "'[v' 'let!'  x  :=  m  'in' '/' k ']'").

(** ** Python lists of fixed length

    [Graph.adj], [BFS.visited] and [BFS.min_dist_from_source] are lists of
    [N] cells created with one value in every cell ([[x] * N],
    [[[] for _ in range(N)]]), then read and written by index and never
    resized.  Such a list is represented by its length, the value its cells
    were created with, and the cells written since.  Indexing follows
    Python: an index [i] with [-len <= i < 0] means [len + i], and any index
    outside [-len .. len - 1] raises [IndexError]. *)
Record pylist (A : Type) : Type := PyList {
  pl_len : Z;
  pl_fill : A;
  pl_cells : gmap Z A
}.
Arguments PyList {A} _ _ _.
Arguments pl_len {A} _.
Arguments pl_fill {A} _.
Arguments pl_cells {A} _.

(** [[x] * n]: empty when [n <= 0]. *)
Definition pl_new {A} (n : Z) (x : A) : pylist A := PyList (Z.max 0 n) x ∅.

Definition pl_index {A} (l : pylist A) (i : Z) : option Z :=
  let j := if i <? 0 then i + pl_len l else i in
  if (0 <=? j) && (j <? pl_len l) then Some j else None.

(** The cell at a position already known to be in range. *)
Definition pl_at {A} (l : pylist A) (j : Z) : A :=
  default (pl_fill l) (pl_cells l !! j).

(** [l[i]] *)
Definition pl_get {A} (l : pylist A) (i : Z) : outcome A :=
  match pl_index l i with
  | Some j => Ok (pl_at l j)
  | None => Raise IndexError
  end.

(** The list with [x] in the cell at position [j]. *)
Definition pl_upd {A} (l : pylist A) (j : Z) (x : A) : pylist A :=
  PyList (pl_len l) (pl_fill l) (<[j:=x]> (pl_cells l)).

(** [l[i] = x] *)
Definition pl_set {A} (l : pylist A) (i : Z) (x : A) : outcome (pylist A) :=
  match pl_index l i with
  | Some j => Ok (pl_upd l j x)
  | None => Raise IndexError
  end.

(** ** class Hash *)

Abbreviation triple := (Z * Z * Z)%type.

(** [self.hash_table : Dict[Tuple, int]] *)
Abbreviation Hash := (gmap triple Z).

Definition Hash_init : Hash := ∅.

(** Lines 13-23 of [Hash.hash]: the key looked up, or the exception. *)
Definition hash_key (x : pyval) : exn + triple :=
  match x with
  | PInt x => inr (x, 0, 0)
  | PTuple xs =>
      match xs with
      | [a; b] => inr (a, b, 0)
      | [a; b; c] => inr (a, b, c)
      | _ => inl ValueError
      end
  | POther => inl TypeError
  end.

(** Lines 25-28 of [Hash.hash]. *)
Definition hash_store (key : triple) : M Hash Z := λ t,
  let t' := match t !! key with
            | None => <[key := Z.of_nat (size t)]> t
            | Some _ => t
            end in
  match t' !! key with
  | Some i => (Ok i, t')
  | None => (Raise KeyError, t')
  end.

Definition Hash_hash (x : pyval) : M Hash Z :=
  match hash_key x with
  | inl e => raise e
  | inr key => hash_store key
  end.

(** ** class Graph *)

Abbreviation adjlist := (list (Z * Z)).

Record Graph : Type := mkGraph {
  g_n : Z;
  g_is_directed : bool;
  g_N : Z;
  g_adj : pylist adjlist;
  g_h : Hash
}.

Definition Graph_init (n : Z) (is_directed : bool) : Graph :=
  let N := 5000000 in
  mkGraph n is_directed N (pl_new N []) Hash_init.

Definition set_h (t : Hash) (gr : Graph) : Graph :=
  mkGraph (g_n gr) (g_is_directed gr) (g_N gr) (g_adj gr) t.

Definition set_adj (adj : pylist adjlist) (gr : Graph) : Graph :=
  mkGraph (g_n gr) (g_is_directed gr) (g_N gr) adj (g_h gr).

(** [self.h.hash(x)] from a method of [Graph]. *)
Definition g_hash (x : pyval) : M Graph Z := λ gr,
  let '(r, t) := Hash_hash x (g_h gr) in (r, set_h t gr).

(** [adj[j].append(e)] for a position [j] in range. *)
Definition adj_push (j : Z) (e : Z * Z) (adj : pylist adjlist)
  : pylist adjlist :=
  PyList (pl_len adj) (pl_fill adj) (<[j := pl_at adj j ++ [e]]> (pl_cells adj)).

(** [self.adj[u].append((v, weight))] *)
Definition _add_edge_weighted_undirected (u v weight : Z) : M Graph unit :=
  λ gr,
  match pl_index (g_adj gr) u with
  | Some j => (Ok (), set_adj (adj_push j (v, weight) (g_adj gr)) gr)
  | None => (Raise IndexError, gr)
  end.

Definition _add_edge_internal (u v weight : Z) : M Graph unit :=
  let! _ := _add_edge_weighted_undirected u v weight in
  λ gr, if negb (g_is_directed gr)
        then _add_edge_weighted_undirected v u weight gr
        else ret () gr.

Definition add_edge (u v : pyval) (weight : Z) : M Graph unit :=
  let! u_hash := g_hash u in
  let! v_hash := g_hash v in
  _add_edge_internal u_hash v_hash weight.

(** ** class BFS

    [self.g] is a reference to the graph the traversal was created on: the
    graph inside a [BFS] value is that shared object, and the methods that
    resolve a key through [self.g.h] leave their mark in it. *)
Record BFS : Type := mkBFS {
  g : Graph;
  min_dist_from_source : pylist Z;
  visited : pylist bool
}.

Definition clear (b : BFS) : BFS :=
  mkBFS (g b) (pl_new (g_N (g b)) (-1)) (pl_new (g_N (g b)) false).

Definition BFS_init (graph : Graph) : BFS :=
  clear (mkBFS graph (pl_new 0 0) (pl_new 0 false)).

Definition set_g (gr : Graph) (b : BFS) : BFS :=
  mkBFS gr (min_dist_from_source b) (visited b).

(** [self.g.h.hash(x)] *)
Definition b_hash (x : pyval) : M BFS Z := λ b,
  let '(r, gr) := g_hash x (g b) in (r, set_g gr b).

(** [self.visited[i]] and [self.visited[i] = x] *)
Definition get_visited (i : Z) : M BFS bool := λ b, (pl_get (visited b) i, b).

Definition set_visited (i : Z) (x : bool) : M BFS unit := λ b,
  match pl_set (visited b) i x with
  | Ok l => (Ok (), mkBFS (g b) (min_dist_from_source b) l)
  | Raise e => (Raise e, b)
  | OutOfFuel => (OutOfFuel, b)
  end.

(** [self.min_dist_from_source[i]] and [self.min_dist_from_source[i] = x] *)
Definition get_dist (i : Z) : M BFS Z :=
  λ b, (pl_get (min_dist_from_source b) i, b).

Definition set_dist (i : Z) (x : Z) : M BFS unit := λ b,
  match pl_set (min_dist_from_source b) i x with
  | Ok l => (Ok (), mkBFS (g b) l (visited b))
  | Raise e => (Raise e, b)
  | OutOfFuel => (OutOfFuel, b)
  end.

(** [self.g.adj[i]] *)
Definition get_adj (i : Z) : M BFS adjlist := λ b, (pl_get (g_adj (g b)) i, b).

(** The [for adj_node, _ in self.g.adj[cur_node]] loop of [_run_internal],
    over the entries still to come; [q] is the deque. *)
Fixpoint visit_neighbours (cur_node : Z) (l : adjlist) (q : list Z)
  : M BFS (list Z) :=
  match l with
  | [] => ret q
  | (adj_node, _) :: l' =>
      let! seen := get_visited adj_node in
      if negb seen then
        let! _ := set_visited adj_node true in
        let! d := get_dist cur_node in
        let! _ := set_dist adj_node (d + 1) in
        visit_neighbours cur_node l' (q ++ [adj_node])
      else visit_neighbours cur_node l' q
  end.

(** The [while q] loop of [_run_internal], at most [fuel] iterations. *)
Fixpoint bfs_loop (fuel : nat) (q : list Z) : M BFS unit :=
  match q with
  | [] => ret ()
  | cur_node :: q' =>
      match fuel with
      | O => λ b, (OutOfFuel, b)
      | S fuel' =>
          let! l := get_adj cur_node in
          let! q'' := visit_neighbours cur_node l q' in
          bfs_loop fuel' q''
      end
  end.

(** Every id that occurs as a neighbour somewhere in the adjacency lists. *)
Definition targets (adj : pylist adjlist) : gset Z :=
  list_to_set (pl_fill adj).*1
  ∪ list_to_set (mjoin ((λ p, p.2.*1) <$> map_to_list (pl_cells adj))).

(** A bound on the iterations of the [while] loop: the source, and one
    iteration for each id that can be appended to the deque. *)
Definition run_bound (b : BFS) : nat := S (size (targets (g_adj (g b)))).

Definition _run_internal (source : Z) : M BFS unit :=
  let q := [source] in
  let! _ := set_visited source true in
  let! _ := set_dist source 0 in
  λ b, bfs_loop (run_bound b) q b.

Definition run (source : pyval) : M BFS unit :=
  let! source_hash := b_hash source in
  _run_internal source_hash.

Definition _min_dist_internal (target : Z) : M BFS Z := get_dist target.

Definition _is_visited_internal (target : Z) : M BFS bool := get_visited target.

Definition min_dist (target : pyval) : M BFS Z :=
  let! target_hash := b_hash target in
  _min_dist_internal target_hash.

Definition is_visited (target : pyval) : M BFS bool :=
  let! target_hash := b_hash target in
  _is_visited_internal target_hash.

(** [g.add_edge(u, v, weight)] on the graph a traversal refers to. *)
Definition b_add_edge (u v : pyval) (weight : Z) : M BFS unit := λ b,
  let '(r, gr) := add_edge u v weight (g b) in (r, set_g gr b).

(** ** Node keys and the invariant of the identifier index *)

(** The three well-formed shapes of a key, as a subset of [pyval]. *)
Inductive NodeKey : Type :=
| Scalar (x : Z)
| Pair (x y : Z)
| Triple (x y z : Z).

Definition key_val (k : NodeKey) : pyval :=
  match k with
  | Scalar x => PInt x
  | Pair x y => PTuple [x; y]
  | Triple x y z => PTuple [x; y; z]
  end.

Definition normalize (k : NodeKey) : triple :=
  match k with
  | Scalar x => (x, 0, 0)
  | Pair x y => (x, y, 0)
  | Triple x y z => (x, y, z)
  end.

(** The index after a sequence of [hash] calls, raising ones included. *)
Definition resolve_all (xs : list pyval) (t : Hash) : Hash :=
  foldl (λ t x, (Hash_hash x t).2) t xs.

(** Ids are the numbers below the size, each bound to one key. *)
Record hash_wf (t : Hash) : Prop := {
  hash_wf_range : ∀ k i, t !! k = Some i → 0 ≤ i < Z.of_nat (size t);
  hash_wf_inj : ∀ k1 k2 i, t !! k1 = Some i → t !! k2 = Some i → k1 = k2;
  hash_wf_onto : ∀ i, 0 ≤ i < Z.of_nat (size t) → ∃ k, t !! k = Some i
}.

(** ** The invariant of the adjacency store *)

(** What [Graph.__init__] establishes and [add_edge] keeps: the array has
    the 5,000,000 cells of [self.N], cells were created empty, every cell
    written lies inside the array, and every neighbour recorded is an id the
    index has handed out. *)
Record graph_wf (gr : Graph) : Prop := {
  wf_N : g_N gr = 5000000;
  wf_len : pl_len (g_adj gr) = g_N gr;
  wf_fill : pl_fill (g_adj gr) = [];
  wf_hash : hash_wf (g_h gr);
  wf_cells : ∀ j l, pl_cells (g_adj gr) !! j = Some l → 0 ≤ j < pl_len (g_adj gr);
  wf_targets : ∀ j v w, (v, w) ∈ pl_at (g_adj gr) j → 0 ≤ v < Z.of_nat (size (g_h gr))
}.

(** [for i in range(k): g.add_edge(i, i)]: a store whose index holds the
    [k] keys [0 .. k-1]. *)
Fixpoint self_loops (k : nat) (gr : Graph) : Graph :=
  match k with
  | O => gr
  | S k' =>
      (add_edge (PInt (Z.of_nat k')) (PInt (Z.of_nat k')) 0
         (self_loops k' gr)).2
  end.

(** The store after 5,000,000 distinct keys: every cell of the array is the
    list of some id. *)
Definition full_store (n : Z) (is_directed : bool) : Graph :=
  self_loops (Z.to_nat 5000000) (Graph_init n is_directed).

(** A value whose shape is none of scalar, pair, triple. *)
Definition invalid_shape (x : pyval) : Prop :=
  match x with
  | PInt _ => False
  | PTuple xs => length xs ≠ 2%nat ∧ length xs ≠ 3%nat
  | POther => True
  end.

(** ** Sequences of calls on one store and its traversal *)

Inductive call : Type :=
| CAddEdge (u v : pyval) (weight : Z)
| CRun (source : pyval)
| CMinDist (target : pyval)
| CIsVisited (target : pyval)
| CClear.

(** What a call returns: [None], an [int] or a [bool]. *)
Inductive answer : Type :=
| RNone
| RInt (z : Z)
| RBool (x : bool).

Definition do_call (c : call) : M BFS answer :=
  match c with
  | CAddEdge u v w => let! _ := b_add_edge u v w in ret RNone
  | CRun source => let! _ := run source in ret RNone
  | CMinDist target => let! d := min_dist target in ret (RInt d)
  | CIsVisited target => let! x := is_visited target in ret (RBool x)
  | CClear => λ b, (Ok RNone, clear b)
  end.

(** The calls one after the other; a caller that catches an exception goes
    on with the objects as the raising call left them. *)
Fixpoint do_calls (cs : list call) (b : BFS) : list (outcome answer) * BFS :=
  match cs with
  | [] => ([], b)
  | c :: cs' =>
      let '(r, b') := do_call c b in
      let '(rs, b'') := do_calls cs' b' in
      (r :: rs, b'')
  end.

(** The same objects with another value in [Graph.n]. *)
Definition g_set_n (n : Z) (gr : Graph) : Graph :=
  mkGraph n (g_is_directed gr) (g_N gr) (g_adj gr) (g_h gr).

Definition b_set_n (n : Z) (b : BFS) : BFS :=
  mkBFS (g_set_n n (g b)) (min_dist_from_source b) (visited b).

(** A method that neither reads nor writes [Graph.n]. *)
Definition g_blind {A} (m : M Graph A) : Prop :=
  ∀ n gr, m (g_set_n n gr) = ((m gr).1, g_set_n n (m gr).2).

Definition n_blind {A} (m : M BFS A) : Prop :=
  ∀ n b, m (b_set_n n b) = ((m b).1, b_set_n n (m b).2).

(** ** Breadth-first search: graph-theoretic notions and loop measure *)

(** [v] is a neighbour recorded in the adjacency list of [u]. *)
Definition edge (adj : pylist adjlist) (u v : Z) : Prop :=
  ∃ w, (v, w) ∈ pl_at adj u.

(** [path adj u k v]: [v] is reached from [u] by [k] edge traversals. *)
Inductive path (adj : pylist adjlist) (u : Z) : nat → Z → Prop :=
| path_here : path adj u 0 u
| path_next k v x : path adj u k v → edge adj v x → path adj u (S k) x.

Definition reachable (adj : pylist adjlist) (u v : Z) : Prop :=
  ∃ k, path adj u k v.

(** [k] is the minimum number of edge traversals from [u] to [v]. *)
Definition hop_distance (adj : pylist adjlist) (u v : Z) (k : nat) : Prop :=
  path adj u k v ∧ ∀ j, path adj u j v → (k ≤ j)%nat.

(** The neighbours still to be reached: the loop measure is the length of
    the deque plus the size of this set. *)
Definition unvisited (b : BFS) : gset Z :=
  filter (λ v, pl_get (visited b) v = Ok false) (targets (g_adj (g b))).

(** ** Breadth-first search: the loop invariant *)

(** The cells of the two arrays, at a position in range. *)
Definition vis_at (b : BFS) (v : Z) : bool := pl_at (visited b) v.

Definition dist_at (b : BFS) (v : Z) : Z := pl_at (min_dist_from_source b) v.

(** The state after the three writes of the loop body for a neighbour [v]. *)
Definition mark (v d : Z) (b : BFS) : BFS :=
  mkBFS (g b) (pl_upd (min_dist_from_source b) v d)
    (pl_upd (visited b) v true).

Definition sorted_by (f : Z → Z) (q : list Z) : Prop :=
  ∀ (i j : nat) x y, (i ≤ j)%nat → q !! i = Some x → q !! j = Some y →
                     f x ≤ f y.

(** The invariant while the neighbours of [cur] are looked at; [seen] are
    the entries of its adjacency list already handled, [q] is the deque,
    [s] the source. *)
Record visit_inv (adj : pylist adjlist) (s cur : Z) (seen : adjlist)
    (q : list Z) (b : BFS) : Prop := {
  vi_len_v : pl_len (visited b) = pl_len adj;
  vi_len_d : pl_len (min_dist_from_source b) = pl_len adj;
  vi_range : ∀ v, vis_at b v = true → 0 ≤ v < pl_len adj;
  vi_source : vis_at b s = true ∧ dist_at b s = 0;
  vi_path : ∀ v, vis_at b v = true →
                 ∃ k, dist_at b v = Z.of_nat k ∧ path adj s k v;
  vi_unvisited : ∀ v, vis_at b v = false → dist_at b v = -1;
  vi_queue : ∀ x, x ∈ q → vis_at b x = true;
  vi_cur : vis_at b cur = true;
  vi_sorted : sorted_by (dist_at b) q;
  vi_low : ∀ x, x ∈ q → dist_at b cur ≤ dist_at b x;
  vi_level : ∀ v, vis_at b v = true → dist_at b v ≤ dist_at b cur + 1;
  vi_done : ∀ u, vis_at b u = true → u ∉ q → u ≠ cur →
                 ∀ x, edge adj u x →
                      vis_at b x = true ∧ dist_at b x ≤ dist_at b u + 1;
  vi_seen : ∀ x w, (x, w) ∈ seen →
                   vis_at b x = true ∧ dist_at b x ≤ dist_at b cur + 1
}.

(** What holds when the deque is empty. *)
Record bfs_done (adj : pylist adjlist) (s : Z) (b : BFS) : Prop := {
  bd_len_v : pl_len (visited b) = pl_len adj;
  bd_len_d : pl_len (min_dist_from_source b) = pl_len adj;
  bd_range : ∀ v, vis_at b v = true → 0 ≤ v < pl_len adj;
  bd_source : vis_at b s = true ∧ dist_at b s = 0;
  bd_path : ∀ v, vis_at b v = true →
                 ∃ k, dist_at b v = Z.of_nat k ∧ path adj s k v;
  bd_unvisited : ∀ v, vis_at b v = false → dist_at b v = -1;
  bd_closed : ∀ u, vis_at b u = true →
                   ∀ x, edge adj u x →
                        vis_at b x = true ∧ dist_at b x ≤ dist_at b u + 1
}.

(** The invariant of the [while] loop. *)
Definition loop_inv (adj : pylist adjlist) (s : Z) (q : list Z) (b : BFS)
  : Prop :=
  match q with
  | [] => bfs_done adj s b
  | cur :: q' => visit_inv adj s cur [] q' b
  end.

(** ** Array bounds *)

(** Every cell written lies inside the list. *)
Definition pl_bounded {A} (l : pylist A) : Prop :=
  ∀ j x, pl_cells l !! j = Some x → 0 ≤ j < pl_len l.

(** A traversal over a well-formed store, its two arrays of the size
    [clear] gives them. *)
Record bfs_wf (b : BFS) : Prop := {
  bwf_graph : graph_wf (g b);
  bwf_len_v : pl_len (visited b) = 5000000;
  bwf_len_d : pl_len (min_dist_from_source b) = 5000000;
  bwf_cells_v : pl_bounded (visited b);
  bwf_cells_d : pl_bounded (min_dist_from_source b)
}.

(** ** Graphs that differ in their weights only *)

(** The adjacency lists without the weights. *)
Definition erase_weights (adj : pylist adjlist) : pylist (list Z) :=
  PyList (pl_len adj) ((pl_fill adj).*1)
    ((λ l : adjlist, l.*1) <$> pl_cells adj).

Record same_but_weights (gr1 gr2 : Graph) : Prop := {
  sw_n : g_n gr1 = g_n gr2;
  sw_is_directed : g_is_directed gr1 = g_is_directed gr2;
  sw_N : g_N gr1 = g_N gr2;
  sw_h : g_h gr1 = g_h gr2;
  sw_adj : erase_weights (g_adj gr1) = erase_weights (g_adj gr2)
}.

(** A method of [BFS] that neither reads nor writes [self.g]. *)
Definition g_free {A} (m : M BFS A) : Prop :=
  ∀ gr b, m (set_g gr b) = ((m b).1, set_g gr (m b).2).

(** ** Notions for the further properties *)

(** [[h.hash(x) for x in xs]], with the index the calls leave. *)
Fixpoint hash_all (xs : list pyval) (t : Hash) : list (outcome Z) * Hash :=
  match xs with
  | [] => ([], t)
  | x :: xs' =>
      let '(r, t') := Hash_hash x t in
      let '(rs, t'') := hash_all xs' t' in
      (r :: rs, t'')
  end.

(** Every entry has its mirror image, with the same weight. *)
Definition symmetric_adj (adj : pylist adjlist) : Prop :=
  ∀ u v w, (v, w) ∈ pl_at adj u → (u, w) ∈ pl_at adj v.

(** The outcomes a caller has to expect. *)
Definition expected {A} (o : outcome A) : Prop :=
  match o with
  | Ok _ => True
  | Raise e => e = ValueError ∨ e = TypeError ∨ e = IndexError
  | OutOfFuel => False
  end.

(** A store that has only grown: same configuration, every binding of the
    index kept, every adjacency list extended at its end. *)
Record store_extends (gr gr' : Graph) : Prop := {
  se_n : g_n gr' = g_n gr;
  se_is_directed : g_is_directed gr' = g_is_directed gr;
  se_N : g_N gr' = g_N gr;
  se_len : pl_len (g_adj gr') = pl_len (g_adj gr);
  se_h : g_h gr ⊆ g_h gr';
  se_adj : ∀ j, pl_at (g_adj gr) j `prefix_of` pl_at (g_adj gr') j
}.

(** The marks of [b0] are still there in [b]: the arrays have the lengths
    they had, and a cell visited in [b0] is visited in [b] with the
    distance it had. *)
Record keeps_marks (b0 b : BFS) : Prop := {
  km_len_v : pl_len (visited b) = pl_len (visited b0);
  km_len_d :
    pl_len (min_dist_from_source b) = pl_len (min_dist_from_source b0);
  km_cells : ∀ j, vis_at b0 j = true →
                  vis_at b j = true ∧ dist_at b j = dist_at b0 j
}.

(** * Properties *)

(** ** Fixed-length lists *)

Section pylist_facts.
Context {A : Type}.
Implicit Types (l : pylist A) (i j : Z) (x : A).

Lemma pl_index_Some l i j :
  pl_index l i = Some j → 0 ≤ j < pl_len l.
Proof.
  unfold pl_index. intros H.
  destruct (i <? 0); case_match; simplify_eq; lia.
Qed.

Lemma pl_index_in_range l i :
  0 ≤ i < pl_len l → pl_index l i = Some i.
Proof.
  intros [H0 H1]. unfold pl_index.
  destruct (Z.ltb_spec i 0); [lia|].
  destruct (Z.leb_spec 0 i); [|lia].
  destruct (Z.ltb_spec i (pl_len l)); [done|lia].
Qed.

Lemma pl_index_above l i :
  0 ≤ i → pl_len l ≤ i → pl_index l i = None.
Proof.
  intros H0 H1. unfold pl_index.
  destruct (Z.ltb_spec i 0); [lia|].
  destruct (Z.ltb_spec i (pl_len l)); [lia|].
  by rewrite andb_false_r.
Qed.

Lemma pl_get_in_range l i :
  0 ≤ i < pl_len l → pl_get l i = Ok (pl_at l i).
Proof. intros H. unfold pl_get. by rewrite pl_index_in_range. Qed.

Lemma pl_get_above l i :
  0 ≤ i → pl_len l ≤ i → pl_get l i = Raise IndexError.
Proof. intros H0 H1. unfold pl_get. by rewrite pl_index_above. Qed.

Lemma pl_at_new n x j : pl_at (pl_new n x) j = x.
Proof. unfold pl_at, pl_new. simpl. by rewrite lookup_empty. Qed.

Lemma pl_at_insert len fill (cells : gmap Z A) i j x :
  pl_at (PyList len fill (<[i:=x]> cells)) j
  = if decide (i = j) then x else pl_at (PyList len fill cells) j.
Proof.
  unfold pl_at. simpl. rewrite lookup_insert.
  by destruct (decide (i = j)).
Qed.
End pylist_facts.

(** ** The identifier index *)

Lemma hash_key_key_val (k : NodeKey) : hash_key (key_val k) = inr (normalize k).
Proof. by destruct k. Qed.

Lemma hash_store_eq (key : triple) (t : Hash) :
  hash_store key t
  = match t !! key with
    | Some i => (Ok i, t)
    | None => (Ok (Z.of_nat (size t)), <[key := Z.of_nat (size t)]> t)
    end.
Proof.
  unfold hash_store. destruct (t !! key) as [i|] eqn:E.
  - by rewrite E.
  - by rewrite lookup_insert_eq.
Qed.

Lemma Hash_hash_key_val (k : NodeKey) (t : Hash) :
  Hash_hash (key_val k) t = hash_store (normalize k) t.
Proof. unfold Hash_hash. by rewrite hash_key_key_val. Qed.

Lemma hash_store_again (key : triple) (t : Hash) :
  ∃ i, hash_store key t = (Ok i, (hash_store key t).2)
       ∧ hash_store key (hash_store key t).2 = (Ok i, (hash_store key t).2).
Proof.
  rewrite !hash_store_eq. destruct (t !! key) as [i|] eqn:E; simpl.
  - exists i. by rewrite E.
  - exists (Z.of_nat (size t)). by rewrite lookup_insert_eq.
Qed.

Lemma hash_wf_empty : hash_wf Hash_init.
Proof.
  unfold Hash_init. split.
  - intros k i H. by rewrite lookup_empty in H.
  - intros k1 k2 i H. by rewrite lookup_empty in H.
  - intros i. rewrite map_size_empty. lia.
Qed.

Lemma hash_store_wf (key : triple) (t : Hash) :
  hash_wf t → hash_wf (hash_store key t).2.
Proof.
  intros [Hr Hi Ho]. rewrite hash_store_eq.
  destruct (t !! key) as [i|] eqn:E; simpl; [by split|].
  split.
  - intros k i. rewrite map_size_insert_None by done.
    rewrite lookup_insert. case_decide; intros Hk; simplify_eq; [lia|].
    apply Hr in Hk. lia.
  - intros k1 k2 i. rewrite !lookup_insert.
    repeat case_decide; intros Hk1 Hk2; simplify_eq; try done.
    + apply Hr in Hk2. lia.
    + apply Hr in Hk1. lia.
    + by eapply Hi.
  - intros i. rewrite map_size_insert_None by done. intros Hlt.
    destruct (decide (i = Z.of_nat (size t))) as [->|Hne].
    + exists key. by rewrite lookup_insert_eq.
    + destruct (Ho i) as [k Hk]; [lia|]. exists k.
      rewrite lookup_insert_ne; [done|]. intros ->. congruence.
Qed.

Lemma Hash_hash_wf (x : pyval) (t : Hash) :
  hash_wf t → hash_wf (Hash_hash x t).2.
Proof.
  intros H. unfold Hash_hash. destruct (hash_key x); [done|].
  by apply hash_store_wf.
Qed.

Lemma resolve_all_wf (xs : list pyval) (t : Hash) :
  hash_wf t → hash_wf (resolve_all xs t).
Proof.
  revert t. induction xs as [|x xs IH]; intros t H; [done|].
  simpl. apply IH. by apply Hash_hash_wf.
Qed.

(** C3. Resolving a key twice in succession gives the same id; so do two
    keys with the same normal form; on a fresh index [5], [(5, 0)] and
    [(5, 0, 0)] all resolve to id 0, whichever of them comes first. *)
Theorem resolve_twice_same_id :
  (∀ (k : NodeKey) (t : Hash), ∃ i t',
      Hash_hash (key_val k) t = (Ok i, t')
      ∧ Hash_hash (key_val k) t' = (Ok i, t'))
  ∧ (∀ (k1 k2 : NodeKey) (t : Hash),
      normalize k1 = normalize k2 →
      ∃ i t', Hash_hash (key_val k1) t = (Ok i, t')
              ∧ Hash_hash (key_val k2) t' = (Ok i, t'))
  ∧ (∀ k1 k2 : NodeKey,
      k1 ∈ [Scalar 5; Pair 5 0; Triple 5 0 0] →
      k2 ∈ [Scalar 5; Pair 5 0; Triple 5 0 0] →
      ∃ t', Hash_hash (key_val k1) Hash_init = (Ok 0, t')
            ∧ Hash_hash (key_val k2) t' = (Ok 0, t')).
Proof.
  assert (Hsame : ∀ (k1 k2 : NodeKey) (t : Hash),
      normalize k1 = normalize k2 →
      ∃ i t', Hash_hash (key_val k1) t = (Ok i, t')
              ∧ Hash_hash (key_val k2) t' = (Ok i, t')).
  { intros k1 k2 t Hn. rewrite Hash_hash_key_val.
    destruct (hash_store_again (normalize k1) t) as (i & H1 & H2).
    exists i, (hash_store (normalize k1) t).2. split; [done|].
    by rewrite Hash_hash_key_val, <- Hn. }
  split; [|split].
  - intros k t. by apply Hsame.
  - done.
  - intros k1 k2 H1 H2.
    assert (normalize k1 = (5, 0, 0)) as N1.
    { set_unfold. by destruct H1 as [->|[->|[->|[]]]]. }
    assert (normalize k2 = (5, 0, 0)) as N2.
    { set_unfold. by destruct H2 as [->|[->|[->|[]]]]. }
    destruct (Hsame k1 k2 Hash_init) as (i & t' & E1 & E2); [congruence|].
    exists t'. rewrite Hash_hash_key_val, hash_store_eq, N1 in E1.
    unfold Hash_init in E1. rewrite lookup_empty, map_size_empty in E1.
    simplify_eq. split; [|done].
    rewrite Hash_hash_key_val, hash_store_eq, N1.
    unfold Hash_init. by rewrite lookup_empty, map_size_empty.
Qed.

Lemma resolve_twice_same_id_witness :
  normalize (Scalar 5) = normalize (Triple 5 0 0)
  ∧ ∃ i t', Hash_hash (key_val (Scalar 5)) {[ (7, 0, 0) := 0 ]} = (Ok i, t')
            ∧ Hash_hash (key_val (Triple 5 0 0)) t' = (Ok i, t').
Proof.
  split; [reflexivity|].
  apply (proj1 (proj2 resolve_twice_same_id)). reflexivity.
Defined.

(** C4. Along any sequence of [hash] calls on a fresh index the mapping only
    grows: a call keeps every binding, an unseen key gets the current size
    as its id, a seen key or a rejected value changes nothing, and the ids
    in use are each bound to one key and are exactly the numbers below the
    size. *)
Theorem index_append_only (xs : list pyval) (x : pyval) :
  let t := resolve_all xs Hash_init in
  let r := (Hash_hash x t).1 in
  let t' := (Hash_hash x t).2 in
  (∀ k i, t !! k = Some i → t' !! k = Some i)
  ∧ (∀ k1 k2 i, t' !! k1 = Some i → t' !! k2 = Some i → k1 = k2)
  ∧ (∀ i, 0 ≤ i < Z.of_nat (size t') ↔ ∃ k, t' !! k = Some i)
  ∧ match hash_key x with
    | inl e => r = Raise e ∧ t' = t
    | inr key =>
        match t !! key with
        | Some i => r = Ok i ∧ t' = t
        | None =>
            r = Ok (Z.of_nat (size t))
            ∧ t' = <[key := Z.of_nat (size t)]> t
            ∧ size t' = S (size t)
        end
    end.
Proof.
  intros t r t'.
  assert (Hwf : hash_wf t) by apply resolve_all_wf, hash_wf_empty.
  assert (Hwf' : hash_wf t') by by apply Hash_hash_wf.
  split; [|split; [|split]].
  - intros k i Hk. subst t'. unfold Hash_hash.
    destruct (hash_key x) as [e|key]; [done|].
    rewrite hash_store_eq. destruct (t !! key) eqn:E; simpl; [done|].
    rewrite lookup_insert_ne; [done|]. intros ->. congruence.
  - apply Hwf'.
  - intros i. split; [apply Hwf'|]. intros [k Hk]. by eapply Hwf'.
  - subst r t'. unfold Hash_hash.
    destruct (hash_key x) as [e|key]; [done|].
    rewrite hash_store_eq. destruct (t !! key) eqn:E; simpl; [done|].
    split; [done|]. split; [done|]. by apply map_size_insert_None.
Qed.

(** ** The adjacency store *)

Lemma hash_store_size (key : triple) (t : Hash) :
  (size t ≤ size (hash_store key t).2)%nat.
Proof.
  rewrite hash_store_eq. destruct (t !! key) eqn:E; simpl; [done|].
  rewrite map_size_insert_None by done. lia.
Qed.

Lemma Hash_hash_size (x : pyval) (t : Hash) :
  (size t ≤ size (Hash_hash x t).2)%nat.
Proof.
  unfold Hash_hash. destruct (hash_key x); [done|]. apply hash_store_size.
Qed.

Lemma Hash_hash_Ok_range (x : pyval) (t t' : Hash) (i : Z) :
  hash_wf t → Hash_hash x t = (Ok i, t') →
  0 ≤ i < Z.of_nat (size t') ∧ hash_wf t'.
Proof.
  intros Hwf E. pose proof (Hash_hash_wf x t Hwf) as Hwf'.
  rewrite E in Hwf'. simpl in Hwf'. split; [|done].
  unfold Hash_hash in E. destruct (hash_key x) as [e|key]; [done|].
  rewrite hash_store_eq in E.
  destruct (t !! key) as [i'|] eqn:Ek; simplify_eq.
  - by eapply Hwf.
  - rewrite map_size_insert_None by done. lia.
Qed.

Lemma Hash_hash_terminates (x : pyval) (t : Hash) :
  (Hash_hash x t).1 ≠ OutOfFuel.
Proof.
  unfold Hash_hash. destruct (hash_key x) as [e|key]; [done|].
  rewrite hash_store_eq. by destruct (t !! key).
Qed.

Lemma Graph_init_wf (n : Z) (d : bool) : graph_wf (Graph_init n d).
Proof.
  split; simpl; try done.
  - apply hash_wf_empty.
  - intros j v w. rewrite pl_at_new. by intros ?%elem_of_nil.
Qed.

Lemma set_h_wf (gr : Graph) (t : Hash) :
  graph_wf gr → hash_wf t → (size (g_h gr) ≤ size t)%nat →
  graph_wf (set_h t gr).
Proof.
  intros [] Ht Hs. split; simpl; try done.
  intros j v w Hin. apply wf_targets0 in Hin. lia.
Qed.

Lemma g_hash_wf (x : pyval) (gr : Graph) :
  graph_wf gr → graph_wf (g_hash x gr).2.
Proof.
  intros Hwf. unfold g_hash.
  pose proof (Hash_hash_wf x (g_h gr) (wf_hash _ Hwf)).
  pose proof (Hash_hash_size x (g_h gr)).
  destruct (Hash_hash x (g_h gr)) as [r t]. by apply set_h_wf.
Qed.

Lemma pl_at_adj_push (adj : pylist adjlist) (j i : Z) (e : Z * Z) :
  pl_at (adj_push j e adj) i
  = if decide (j = i) then pl_at adj i ++ [e] else pl_at adj i.
Proof.
  unfold adj_push. rewrite pl_at_insert.
  destruct (decide (j = i)) as [->|]; [done|].
  by destruct adj.
Qed.

Lemma adj_push_wf (gr : Graph) (j v w : Z) :
  graph_wf gr → 0 ≤ j < pl_len (g_adj gr) →
  0 ≤ v < Z.of_nat (size (g_h gr)) →
  graph_wf (set_adj (adj_push j (v, w) (g_adj gr)) gr).
Proof.
  intros [] Hj Hv. split; simpl; try done.
  - intros i l. rewrite lookup_insert. case_decide; [intros; lia|].
    apply wf_cells0.
  - intros i v' w'. rewrite pl_at_adj_push.
    case_decide; [|apply wf_targets0].
    rewrite elem_of_app, list_elem_of_singleton.
    intros [Hin|?]; [by eapply wf_targets0|by simplify_eq].
Qed.

Lemma _add_edge_weighted_undirected_in (u v w : Z) (gr : Graph) :
  0 ≤ u < pl_len (g_adj gr) →
  _add_edge_weighted_undirected u v w gr
  = (Ok (), set_adj (adj_push u (v, w) (g_adj gr)) gr).
Proof.
  intros H. unfold _add_edge_weighted_undirected.
  by rewrite pl_index_in_range.
Qed.

Lemma _add_edge_weighted_undirected_out (u v w : Z) (gr : Graph) :
  0 ≤ u → pl_len (g_adj gr) ≤ u →
  _add_edge_weighted_undirected u v w gr = (Raise IndexError, gr).
Proof.
  intros H0 H1. unfold _add_edge_weighted_undirected.
  by rewrite pl_index_above.
Qed.

(** What [add_edge] does once both endpoints have resolved. *)
Lemma add_edge_cases (gr : Graph) (u v : pyval) (w ida idb : Z) (t1 t2 : Hash) :
  0 ≤ ida → 0 ≤ idb →
  Hash_hash u (g_h gr) = (Ok ida, t1) →
  Hash_hash v t1 = (Ok idb, t2) →
  add_edge u v w gr
  = let gr2 := set_h t2 gr in
    if decide (ida < pl_len (g_adj gr)) then
      let gr3 := set_adj (adj_push ida (idb, w) (g_adj gr)) gr2 in
      if g_is_directed gr then (Ok (), gr3)
      else if decide (idb < pl_len (g_adj gr))
           then (Ok (), set_adj (adj_push idb (ida, w) (g_adj gr3)) gr3)
           else (Raise IndexError, gr3)
    else (Raise IndexError, gr2).
Proof.
  intros Ha Hb E1 E2. unfold add_edge, bind, g_hash.
  rewrite E1. simpl. rewrite E2. simpl.
  unfold _add_edge_internal, bind.
  destruct (decide (ida < pl_len (g_adj gr))) as [Hlt|Hge].
  - rewrite _add_edge_weighted_undirected_in by (simpl; lia). simpl.
    destruct (g_is_directed gr); simpl; [done|].
    destruct (decide (idb < pl_len (g_adj gr))) as [Hlt'|Hge'].
    + by rewrite _add_edge_weighted_undirected_in by (simpl; lia).
    + by rewrite _add_edge_weighted_undirected_out by (simpl; lia).
  - by rewrite _add_edge_weighted_undirected_out by (simpl; lia).
Qed.

Lemma add_edge_wf (u v : pyval) (w : Z) (gr : Graph) :
  graph_wf gr → graph_wf (add_edge u v w gr).2.
Proof.
  intros Hwf.
  destruct (Hash_hash u (g_h gr)) as [ra t1] eqn:E1.
  pose proof (Hash_hash_wf u (g_h gr) (wf_hash _ Hwf)) as Hwf1.
  pose proof (Hash_hash_size u (g_h gr)) as Hs1.
  rewrite E1 in Hwf1, Hs1. simpl in Hwf1, Hs1.
  destruct ra as [ida|e|]; cycle 1.
  { unfold add_edge, bind, g_hash. rewrite E1. simpl. by apply set_h_wf. }
  { unfold add_edge, bind, g_hash. rewrite E1. simpl. by apply set_h_wf. }
  destruct (Hash_hash v t1) as [rb t2] eqn:E2.
  pose proof (Hash_hash_wf v t1 Hwf1) as Hwf2.
  pose proof (Hash_hash_size v t1) as Hs2.
  rewrite E2 in Hwf2, Hs2. simpl in Hwf2, Hs2.
  assert (graph_wf (set_h t2 gr)) as Hwf' by (apply set_h_wf; [done..|lia]).
  destruct rb as [idb|e|]; cycle 1.
  { unfold add_edge, bind, g_hash. rewrite E1. simpl. by rewrite E2. }
  { unfold add_edge, bind, g_hash. rewrite E1. simpl. by rewrite E2. }
  destruct (Hash_hash_Ok_range _ _ _ _ (wf_hash _ Hwf) E1) as [Ra _].
  destruct (Hash_hash_Ok_range _ _ _ _ Hwf1 E2) as [Rb _].
  rewrite (add_edge_cases gr u v w ida idb t1 t2) by (done || lia).
  simpl.
  assert (∀ j x y, 0 ≤ j < pl_len (g_adj gr) → 0 ≤ x < Z.of_nat (size t2) →
            graph_wf (set_adj (adj_push j (x, y) (g_adj gr)) (set_h t2 gr)))
    as Hpush.
  { intros j x y Hj Hx. by apply (adj_push_wf (set_h t2 gr)). }
  destruct (decide (ida < pl_len (g_adj gr))); [|done].
  assert (graph_wf (set_adj (adj_push ida (idb, w) (g_adj gr)) (set_h t2 gr)))
    as Hwf3 by (apply Hpush; lia).
  destruct (g_is_directed gr); [done|].
  destruct (decide (idb < pl_len (g_adj gr))); [|done]. simpl.
  apply (adj_push_wf _ idb ida w Hwf3); simpl; lia.
Qed.

(** C5. For keys [a], [b] that resolve to ids [ida], [idb] inside the
    array, [add_edge a b w] on a directed store appends [(idb, w)] to the
    list of [ida], and leaves the list of [idb] alone when [idb] differs
    from [ida]; on an undirected store it appends [(idb, w)] to the list of
    [ida] and then [(ida, w)] to the list of [idb], both to the same list
    when the two ids coincide.  Every other list is unchanged. *)
Theorem add_edge_adjacency (gr : Graph) (a b : NodeKey) (w ida idb : Z)
    (t1 t2 : Hash) :
  graph_wf gr →
  Hash_hash (key_val a) (g_h gr) = (Ok ida, t1) →
  Hash_hash (key_val b) t1 = (Ok idb, t2) →
  ida < 5000000 → idb < 5000000 →
  let adj := g_adj gr in
  ∃ gr', add_edge (key_val a) (key_val b) w gr = (Ok (), gr')
    ∧ g_h gr' = t2
    ∧ pl_len (g_adj gr') = pl_len adj
    ∧ (∀ j, j ≠ ida → j ≠ idb → pl_at (g_adj gr') j = pl_at adj j)
    ∧ if g_is_directed gr then
        pl_get (g_adj gr') ida = Ok (pl_at adj ida ++ [(idb, w)])
        ∧ (idb ≠ ida → pl_get (g_adj gr') idb = Ok (pl_at adj idb))
      else if decide (ida = idb) then
        pl_get (g_adj gr') ida = Ok (pl_at adj ida ++ [(idb, w); (ida, w)])
      else
        pl_get (g_adj gr') ida = Ok (pl_at adj ida ++ [(idb, w)])
        ∧ pl_get (g_adj gr') idb = Ok (pl_at adj idb ++ [(ida, w)]).
Proof.
  intros Hwf E1 E2 Ha Hb adj.
  destruct (Hash_hash_Ok_range _ _ _ _ (wf_hash _ Hwf) E1) as [Ra Hwf1].
  destruct (Hash_hash_Ok_range _ _ _ _ Hwf1 E2) as [Rb _].
  assert (pl_len adj = 5000000) as Hlen.
  { subst adj. rewrite (wf_len _ Hwf). apply Hwf. }
  rewrite (add_edge_cases gr _ _ w ida idb t1 t2) by (done || lia).
  cbv zeta. fold adj. rewrite Hlen.
  destruct (decide (ida < 5000000)); [|lia].
  destruct (g_is_directed gr).
  - eexists. split; [done|]. simpl. split; [done|]. split; [done|].
    split; [|split].
    + intros j Hj _. rewrite pl_at_adj_push. by case_decide.
    + rewrite pl_get_in_range by (simpl; lia).
      rewrite pl_at_adj_push. by case_decide.
    + intros Hne. rewrite pl_get_in_range by (simpl; lia).
      rewrite pl_at_adj_push. by case_decide.
  - destruct (decide (idb < 5000000)); [|lia].
    eexists. split; [done|]. simpl. split; [done|]. split; [done|].
    split.
    + intros j Hj Hj'. rewrite !pl_at_adj_push. by repeat case_decide.
    + destruct (decide (ida = idb)) as [->|Hne].
      * rewrite pl_get_in_range by (simpl; lia).
        rewrite !pl_at_adj_push. repeat case_decide; try done.
        by rewrite <- app_assoc.
      * split; rewrite pl_get_in_range by (simpl; lia);
          rewrite !pl_at_adj_push; by repeat case_decide.
Qed.

Lemma add_edge_adjacency_witness :
  graph_wf (Graph_init 5 false)
  ∧ Hash_hash (key_val (Scalar 0)) (g_h (Graph_init 5 false))
    = (Ok 0, {[ (0, 0, 0) := 0 ]})
  ∧ Hash_hash (key_val (Pair 1 0)) {[ (0, 0, 0) := 0 ]}
    = (Ok 1, <[ (1, 0, 0) := 1 ]> {[ (0, 0, 0) := 0 ]})
  ∧ ∃ gr', add_edge (key_val (Scalar 0)) (key_val (Pair 1 0)) 3
             (Graph_init 5 false) = (Ok (), gr')
           ∧ pl_get (g_adj gr') 0 = Ok [(1, 3)]
           ∧ pl_get (g_adj gr') 1 = Ok [(0, 3)].
Proof.
  assert (E1 : Hash_hash (key_val (Scalar 0)) (g_h (Graph_init 5 false))
               = (Ok 0, {[ (0, 0, 0) := 0 ]})) by reflexivity.
  assert (E2 : Hash_hash (key_val (Pair 1 0)) {[ (0, 0, 0) := 0 ]}
               = (Ok 1, <[ (1, 0, 0) := 1 ]> {[ (0, 0, 0) := 0 ]}))
    by reflexivity.
  split; [apply Graph_init_wf|].
  split; [exact E1|]. split; [exact E2|].
  destruct (add_edge_adjacency (Graph_init 5 false) (Scalar 0) (Pair 1 0)
              3 0 1 _ _ (Graph_init_wf 5 false) E1 E2)
    as (gr' & E & _ & _ & _ & H0 & H1); [lia..|].
  exists gr'. split; [exact E|]. split; [exact H0|exact H1].
Defined.

(** C5, the claim as written fails for a self-loop on a directed store:
    after [add_edge(0, 0, 7)] the list of [id(b) = 0] has gained an entry. *)
Lemma add_edge_directed_self_loop :
  let gr := Graph_init 5 true in
  let gr' := (add_edge (PInt 0) (PInt 0) 7 gr).2 in
  g_is_directed gr = true
  ∧ (add_edge (PInt 0) (PInt 0) 7 gr).1 = Ok ()
  ∧ Hash_hash (PInt 0) (g_h gr') = (Ok 0, g_h gr')
  ∧ pl_get (g_adj gr) 0 = Ok []
  ∧ pl_get (g_adj gr') 0 = Ok [(0, 7)].
Proof. vm_compute. done. Qed.

(** *** A store filled to capacity *)

Lemma self_loops_index (k : nat) (n : Z) (d : bool) :
  Z.of_nat k ≤ 5000000 →
  let gr := self_loops k (Graph_init n d) in
  graph_wf gr
  ∧ g_is_directed gr = d
  ∧ size (g_h gr) = k
  ∧ ∀ x y z, g_h gr !! (x, y, z)
             = if decide (y = 0 ∧ z = 0 ∧ 0 ≤ x < Z.of_nat k)
               then Some x else None.
Proof.
  induction k as [|k IH]; intros Hk gr.
  - subst gr. simpl. split; [apply Graph_init_wf|]. split; [done|].
    split; [done|]. intros x y z. unfold Hash_init. rewrite lookup_empty.
    case_decide; [lia|done].
  - destruct IH as (Hwf & Hd & Hs & Hl); [lia|].
    set (gr0 := self_loops k (Graph_init n d)) in *.
    assert (Hash_hash (PInt (Z.of_nat k)) (g_h gr0)
            = (Ok (Z.of_nat k), <[(Z.of_nat k, 0, 0) := Z.of_nat k]> (g_h gr0)))
      as E1.
    { unfold Hash_hash. simpl. rewrite hash_store_eq, Hl, Hs.
      case_decide; [lia|done]. }
    assert (Hash_hash (PInt (Z.of_nat k))
              (<[(Z.of_nat k, 0, 0) := Z.of_nat k]> (g_h gr0))
            = (Ok (Z.of_nat k), <[(Z.of_nat k, 0, 0) := Z.of_nat k]> (g_h gr0)))
      as E2.
    { unfold Hash_hash. simpl. by rewrite hash_store_eq, lookup_insert_eq. }
    assert (gr = (add_edge (PInt (Z.of_nat k)) (PInt (Z.of_nat k)) 0 gr0).2)
      as Hgr by done.
    split; [rewrite Hgr; by apply add_edge_wf|].
    rewrite (add_edge_cases gr0 _ _ 0 _ _ _ _ (Nat2Z.is_nonneg k)
               (Nat2Z.is_nonneg k) E1 E2) in Hgr.
    rewrite (wf_len _ Hwf), (wf_N _ Hwf) in Hgr. cbv zeta in Hgr.
    destruct (decide (Z.of_nat k < 5000000)); [|lia].
    assert (g_is_directed gr = d ∧
            g_h gr = <[(Z.of_nat k, 0, 0) := Z.of_nat k]> (g_h gr0)) as [-> ->].
    { rewrite Hgr. destruct (g_is_directed gr0) eqn:Ed; simpl.
      - by rewrite <- Hd.
      - destruct (decide (Z.of_nat k < 5000000)); [|lia]. simpl.
        by rewrite <- Hd. }
    split; [done|].
    assert (g_h gr0 !! (Z.of_nat k, 0, 0) = None) as Hnone.
    { rewrite Hl. case_decide; [lia|done]. }
    split; [by rewrite map_size_insert_None, Hs|].
    intros x y z. rewrite lookup_insert.
    destruct (decide ((Z.of_nat k, 0, 0) = (x, y, z))) as [Heq|Hne].
    + simplify_eq. case_decide; [done|lia].
    + rewrite Hl. repeat case_decide; try done; try lia.
      destruct Hne. f_equal; [f_equal|]; lia.
Qed.

(** *** Atomicity of edge insertion *)

(** C8. [add_edge] is all-or-nothing except in one case.  When a key is
    rejected nothing is appended.  On a directed store the one append
    happens, or [IndexError] is raised before it ([ida >= 5,000,000]).  On
    an undirected store both appends happen when both ids are below
    5,000,000, none when [ida] is not, and when [ida < 5,000,000 <= idb]
    the first append is applied and [IndexError] is raised by the second. *)
Theorem add_edge_appends (gr : Graph) (u v : pyval) (w : Z) :
  graph_wf gr →
  let adj := g_adj gr in
  let r := (add_edge u v w gr).1 in
  let adj' := g_adj (add_edge u v w gr).2 in
  match Hash_hash u (g_h gr) with
  | (Ok ida, t1) =>
      match Hash_hash v t1 with
      | (Ok idb, _) =>
          if g_is_directed gr then
            (ida < 5000000 ∧ r = Ok () ∧ adj' = adj_push ida (idb, w) adj)
            ∨ (5000000 ≤ ida ∧ r = Raise IndexError ∧ adj' = adj)
          else
            (ida < 5000000 ∧ idb < 5000000 ∧ r = Ok ()
             ∧ adj' = adj_push idb (ida, w) (adj_push ida (idb, w) adj))
            ∨ (5000000 ≤ ida ∧ r = Raise IndexError ∧ adj' = adj)
            ∨ (ida < 5000000 ∧ 5000000 ≤ idb ∧ r = Raise IndexError
               ∧ adj' = adj_push ida (idb, w) adj)
      | (Raise e, _) => r = Raise e ∧ adj' = adj
      | (OutOfFuel, _) => False
      end
  | (Raise e, _) => r = Raise e ∧ adj' = adj
  | (OutOfFuel, _) => False
  end.
Proof.
  intros Hwf adj r adj'.
  assert (pl_len adj = 5000000) as Hlen.
  { subst adj. rewrite (wf_len _ Hwf). apply Hwf. }
  destruct (Hash_hash u (g_h gr)) as [[ida|e|] t1] eqn:E1; cycle 1.
  { subst r adj'. unfold add_edge, bind, g_hash. by rewrite E1. }
  { by destruct (Hash_hash_terminates u (g_h gr)); rewrite E1. }
  destruct (Hash_hash_Ok_range _ _ _ _ (wf_hash _ Hwf) E1) as [Ra Hwf1].
  destruct (Hash_hash v t1) as [[idb|e|] t2] eqn:E2; cycle 1.
  { subst r adj'. unfold add_edge, bind, g_hash. rewrite E1. simpl.
    by rewrite E2. }
  { by destruct (Hash_hash_terminates v t1); rewrite E2. }
  destruct (Hash_hash_Ok_range _ _ _ _ Hwf1 E2) as [Rb _].
  subst r adj'.
  rewrite (add_edge_cases gr u v w ida idb t1 t2) by (done || lia).
  cbv zeta. fold adj. rewrite Hlen.
  destruct (decide (ida < 5000000)), (g_is_directed gr); simpl.
  - left. done.
  - destruct (decide (idb < 5000000)); simpl.
    + left. done.
    + right. right. repeat split; (done || lia).
  - right. repeat split; (done || lia).
  - right. left. repeat split; (done || lia).
Qed.

Lemma add_edge_appends_witness :
  graph_wf (Graph_init 5 false)
  ∧ g_adj (add_edge (PInt 0) (PInt 1) 3 (Graph_init 5 false)).2
    = adj_push 1 (0, 3) (adj_push 0 (1, 3) (g_adj (Graph_init 5 false))).
Proof.
  split; [apply Graph_init_wf|].
  pose proof (add_edge_appends (Graph_init 5 false) (PInt 0) (PInt 1) 3
                (Graph_init_wf 5 false)) as H.
  cbv zeta in H.
  change (Hash_hash (PInt 0) (g_h (Graph_init 5 false)))
    with (@Ok Z 0, ({[ (0, 0, 0) := 0 ]} : Hash)) in H.
  cbv iota beta in H.
  change (Hash_hash (PInt 1) {[ (0, 0, 0) := 0 ]})
    with (@Ok Z 1, (<[ (1, 0, 0) := 1 ]> {[ (0, 0, 0) := 0 ]} : Hash)) in H.
  cbv iota beta in H.
  change (g_is_directed (Graph_init 5 false)) with false in H.
  cbv iota in H.
  destruct H as [(_ & _ & _ & H)|[(H & _)|(_ & H & _)]]; [exact H|lia..].
Defined.

Lemma add_edge_at_capacity (k : nat) (n : Z) :
  Z.of_nat k = 5000000 →
  let gr := self_loops k (Graph_init n false) in
  let r := add_edge (PInt 0) (PInt 5000000) 7 gr in
  g_is_directed gr = false
  ∧ r.1 = Raise IndexError
  ∧ g_adj r.2 = adj_push 0 (5000000, 7) (g_adj gr)
  ∧ pl_at (g_adj r.2) 0 = pl_at (g_adj gr) 0 ++ [(5000000, 7)].
Proof.
  intros Hk gr r.
  destruct (self_loops_index k n false) as (Hwf & Hd & Hs & Hl); [lia|].
  fold gr in Hwf, Hd, Hs, Hl.
  assert (Hash_hash (PInt 0) (g_h gr) = (Ok 0, g_h gr)) as E1.
  { unfold Hash_hash. simpl. rewrite hash_store_eq, Hl.
    case_decide; [done|lia]. }
  assert (Hash_hash (PInt 5000000) (g_h gr)
          = (Ok 5000000, <[(5000000, 0, 0) := 5000000]> (g_h gr))) as E2.
  { unfold Hash_hash. simpl. rewrite hash_store_eq, Hl, Hs, Hk.
    case_decide; [lia|done]. }
  subst r.
  rewrite (add_edge_cases gr _ _ 7 0 5000000 _ _ ltac:(lia) ltac:(lia) E1 E2).
  rewrite (wf_len _ Hwf), (wf_N _ Hwf), Hd. cbv zeta.
  destruct (decide (0 < 5000000)); [|lia].
  destruct (decide (5000000 < 5000000)); [lia|]. simpl.
  split; [done|]. split; [done|]. split; [done|].
  rewrite pl_at_adj_push. by case_decide.
Qed.

(** C8, the claim as written fails once the index holds 5,000,000 keys: on
    an undirected store [add_edge(0, 5000000, 7)] resolves the new key to id
    5,000,000, appends [(5000000, 7)] to the list of id 0 and then raises
    [IndexError] on the mirrored append. *)
Lemma add_edge_undirected_half_applied :
  let gr := full_store 0 false in
  let r := add_edge (PInt 0) (PInt 5000000) 7 gr in
  g_is_directed gr = false
  ∧ r.1 = Raise IndexError
  ∧ g_adj r.2 = adj_push 0 (5000000, 7) (g_adj gr)
  ∧ pl_at (g_adj r.2) 0 = pl_at (g_adj gr) 0 ++ [(5000000, 7)].
Proof.
  exact (add_edge_at_capacity (Z.to_nat 5000000) 0
           (Z2Nat.id 5000000 (Z.lt_le_incl 0 5000000 eq_refl))).
Qed.

(** ** Rejected keys *)

Lemma set_h_same (gr : Graph) : set_h (g_h gr) gr = gr.
Proof. by destruct gr. Qed.

Lemma set_g_same (b : BFS) : set_g (g b) b = b.
Proof. by destruct b. Qed.

Lemma invalid_shape_hash_key (x : pyval) :
  invalid_shape x →
  ∃ e, hash_key x = inl e ∧ (e = ValueError ∨ e = TypeError).
Proof.
  destruct x as [z|xs|]; simpl; [done| |eauto].
  intros [H2 H3]. exists ValueError. split; [|by left].
  destruct xs as [|a [|b [|c [|d xs]]]]; simpl in *; done.
Qed.

Lemma b_hash_raise (x : pyval) (e : exn) (b : BFS) :
  hash_key x = inl e → b_hash x b = (Raise e, b).
Proof.
  intros H. unfold b_hash, g_hash, Hash_hash. rewrite H. simpl.
  by rewrite set_h_same, set_g_same.
Qed.

(** C9. A value that is a tuple of a length other than 2 and 3, or neither
    an [int] nor a tuple, is rejected with an exception ([ValueError],
    [TypeError]) by [hash], by [add_edge] at either endpoint, by [run],
    [min_dist] and [is_visited]; the index gets no entry for it, and
    nothing else is written (when it is the second endpoint of [add_edge],
    the first has been resolved and that is all). *)
Theorem invalid_key_rejected (x : pyval) :
  invalid_shape x →
  ∃ e, (e = ValueError ∨ e = TypeError)
    ∧ (∀ t, Hash_hash x t = (Raise e, t))
    ∧ (∀ gr v w, add_edge x v w gr = (Raise e, gr))
    ∧ (∀ gr u w i t1,
         Hash_hash u (g_h gr) = (Ok i, t1) →
         add_edge u x w gr = (Raise e, set_h t1 gr))
    ∧ (∀ b, run x b = (Raise e, b))
    ∧ (∀ b, min_dist x b = (Raise e, b))
    ∧ (∀ b, is_visited x b = (Raise e, b)).
Proof.
  intros Hx. destruct (invalid_shape_hash_key x Hx) as (e & He & Hor).
  exists e. split; [done|].
  assert (∀ t, Hash_hash x t = (Raise e, t)) as Hh.
  { intros t. unfold Hash_hash. by rewrite He. }
  split; [done|]. split; [|split; [|split; [|split]]].
  - intros gr v w. unfold add_edge, bind, g_hash. rewrite Hh. simpl.
    by rewrite set_h_same.
  - intros gr u w i t1 E1. unfold add_edge, bind, g_hash. rewrite E1. simpl.
    by rewrite Hh.
  - intros b. unfold run, bind. by rewrite (b_hash_raise x e).
  - intros b. unfold min_dist, bind. by rewrite (b_hash_raise x e).
  - intros b. unfold is_visited, bind. by rewrite (b_hash_raise x e).
Qed.

Lemma invalid_key_rejected_witness :
  invalid_shape (PTuple [1; 2; 3; 4])
  ∧ ∃ e, add_edge (PInt 0) (PTuple [1; 2; 3; 4]) 0 (Graph_init 5 true)
         = (Raise e, set_h {[ (0, 0, 0) := 0 ]} (Graph_init 5 true)).
Proof.
  assert (Hx : invalid_shape (PTuple [1; 2; 3; 4])) by (simpl; lia).
  split; [exact Hx|].
  destruct (invalid_key_rejected (PTuple [1; 2; 3; 4]) Hx)
    as (e & _ & _ & _ & H & _).
  exists e. apply (H (Graph_init 5 true) (PInt 0) 0 0). reflexivity.
Defined.

(** ** [clear] *)

Lemma b_hash_Ok (x : pyval) (b : BFS) (i : Z) (t' : Hash) :
  Hash_hash x (g_h (g b)) = (Ok i, t') →
  b_hash x b = (Ok i, set_g (set_h t' (g b)) b).
Proof. intros E. unfold b_hash, g_hash. by rewrite E. Qed.

(** C7. [clear] leaves the graph (adjacency lists and index) as it is and
    puts the traversal in the state of a fresh instance on that graph;
    afterwards [is_visited] returns [False] and [min_dist] returns [-1] for
    every key whose id lies inside the arrays, and these queries write
    nothing but the index; for a key whose id lies beyond the arrays both
    raise [IndexError]. *)
Theorem clear_resets (b : BFS) :
  g (clear b) = g b
  ∧ clear b = BFS_init (g b)
  ∧ ∀ (k : NodeKey) (i : Z) (t' : Hash),
      Hash_hash (key_val k) (g_h (g b)) = (Ok i, t') →
      0 ≤ i →
      let b' := set_g (set_h t' (g b)) (clear b) in
      (i < g_N (g b) →
       is_visited (key_val k) (clear b) = (Ok false, b')
       ∧ min_dist (key_val k) (clear b) = (Ok (-1), b'))
      ∧ (g_N (g b) ≤ i →
         is_visited (key_val k) (clear b) = (Raise IndexError, b')
         ∧ min_dist (key_val k) (clear b) = (Raise IndexError, b')).
Proof.
  split; [done|]. split; [done|].
  intros k i t' E Hi b'.
  unfold is_visited, min_dist, bind.
  rewrite (b_hash_Ok _ (clear b) i t') by done.
  unfold _is_visited_internal, _min_dist_internal, get_visited, get_dist.
  simpl. split; intros Hcap.
  - rewrite !pl_get_in_range by (simpl; lia). by rewrite !pl_at_new.
  - by rewrite !pl_get_above by (simpl; lia).
Qed.

Lemma clear_resets_witness :
  let b := (run (PInt 0)
              (BFS_init (add_edge (PInt 0) (PInt 1) 0 (Graph_init 5 true)).2)).2 in
  Hash_hash (key_val (Scalar 1)) (g_h (g b)) = (Ok 1, g_h (g b))
  ∧ 0 ≤ 1
  ∧ (is_visited (key_val (Scalar 1)) b).1 = Ok true
  ∧ (is_visited (key_val (Scalar 1)) (clear b)).1 = Ok false
  ∧ (min_dist (key_val (Scalar 1)) (clear b)).1 = Ok (-1).
Proof.
  intros b.
  assert (E : Hash_hash (key_val (Scalar 1)) (g_h (g b)) = (Ok 1, g_h (g b)))
    by reflexivity.
  assert (R : 0 ≤ 1) by lia.
  assert (C : 1 < g_N (g b)) by (vm_compute; done).
  split; [exact E|]. split; [exact R|]. split; [reflexivity|].
  destruct (proj1 (proj2 (proj2 (clear_resets b)) (Scalar 1) 1 _ E R) C)
    as [-> ->].
  split; reflexivity.
Defined.

Lemma clear_at_capacity (k : nat) (n : Z) (d : bool) :
  Z.of_nat k = 5000000 →
  let b := clear (BFS_init (self_loops k (Graph_init n d))) in
  (is_visited (PInt 5000000) b).1 = Raise IndexError
  ∧ (min_dist (PInt 5000000) b).1 = Raise IndexError.
Proof.
  intros Hk b.
  destruct (self_loops_index k n d) as (Hwf & Hd & Hs & Hl); [lia|].
  set (gr := self_loops k (Graph_init n d)) in *.
  assert (Hash_hash (PInt 5000000) (g_h gr)
          = (Ok 5000000, <[(5000000, 0, 0) := 5000000]> (g_h gr))) as E.
  { unfold Hash_hash. simpl. rewrite hash_store_eq, Hl, Hs, Hk.
    case_decide; [lia|done]. }
  unfold is_visited, min_dist, bind. rewrite (b_hash_Ok _ b 5000000 _ E).
  unfold _is_visited_internal, _min_dist_internal, get_visited, get_dist.
  simpl. rewrite !pl_get_above; [done|lia| |lia|].
  - simpl. rewrite (wf_N _ Hwf). lia.
  - simpl. rewrite (wf_N _ Hwf). lia.
Qed.

(** C7, the claim as written fails for a key beyond the arrays: on a store
    whose index holds 5,000,000 keys, after [clear()] a query for a new key
    resolves it to id 5,000,000 and raises [IndexError] instead of
    returning [False] or [-1]. *)
Lemma clear_then_query_beyond_array :
  let b := clear (BFS_init (full_store 0 true)) in
  (is_visited (PInt 5000000) b).1 = Raise IndexError
  ∧ (min_dist (PInt 5000000) b).1 = Raise IndexError.
Proof.
  exact (clear_at_capacity (Z.to_nat 5000000) 0 true
           (Z2Nat.id 5000000 (Z.lt_le_incl 0 5000000 eq_refl))).
Qed.

(** ** The constructor argument [n] *)

Lemma g_blind_bind {A B} (m : M Graph A) (k : A → M Graph B) :
  g_blind m → (∀ a, g_blind (k a)) → g_blind (bind m k).
Proof.
  intros Hm Hk n gr. unfold bind. rewrite Hm.
  destruct (m gr) as [[a|e|] gr']; simpl; [apply Hk|done..].
Qed.

Lemma n_blind_bind {A B} (m : M BFS A) (k : A → M BFS B) :
  n_blind m → (∀ a, n_blind (k a)) → n_blind (bind m k).
Proof.
  intros Hm Hk n b. unfold bind. rewrite Hm.
  destruct (m b) as [[a|e|] b']; simpl; [apply Hk|done..].
Qed.

Lemma n_blind_ret {A} (a : A) : n_blind (ret a).
Proof. done. Qed.

Lemma g_blind_g_hash (x : pyval) : g_blind (g_hash x).
Proof.
  intros n gr. unfold g_hash. simpl.
  by destruct (Hash_hash x (g_h gr)).
Qed.

Lemma g_blind__add_edge_weighted_undirected (u v w : Z) :
  g_blind (_add_edge_weighted_undirected u v w).
Proof.
  intros n gr. unfold _add_edge_weighted_undirected. simpl.
  by destruct (pl_index (g_adj gr) u).
Qed.

Lemma g_blind_add_edge (u v : pyval) (w : Z) : g_blind (add_edge u v w).
Proof.
  unfold add_edge.
  apply g_blind_bind; [apply g_blind_g_hash|]. intros ida.
  apply g_blind_bind; [apply g_blind_g_hash|]. intros idb.
  apply g_blind_bind; [apply g_blind__add_edge_weighted_undirected|].
  intros _ n gr. simpl. destruct (g_is_directed gr); simpl; [done|].
  apply g_blind__add_edge_weighted_undirected.
Qed.

Lemma n_blind_of_g_blind {A} (m : M Graph A) :
  g_blind m → n_blind (λ b, let '(r, gr) := m (g b) in (r, set_g gr b)).
Proof.
  intros Hm n b. simpl. rewrite Hm. by destruct (m (g b)).
Qed.

Lemma n_blind_b_hash (x : pyval) : n_blind (b_hash x).
Proof. apply (n_blind_of_g_blind (g_hash x)), g_blind_g_hash. Qed.

Lemma n_blind_b_add_edge (u v : pyval) (w : Z) : n_blind (b_add_edge u v w).
Proof. apply (n_blind_of_g_blind (add_edge u v w)), g_blind_add_edge. Qed.

Lemma n_blind_get_visited (i : Z) : n_blind (get_visited i).
Proof. done. Qed.

Lemma n_blind_get_dist (i : Z) : n_blind (get_dist i).
Proof. done. Qed.

Lemma n_blind_get_adj (i : Z) : n_blind (get_adj i).
Proof. done. Qed.

Lemma n_blind_set_visited (i : Z) (x : bool) : n_blind (set_visited i x).
Proof.
  intros n b. unfold set_visited. simpl. by destruct (pl_set (visited b) i x).
Qed.

Lemma n_blind_set_dist (i x : Z) : n_blind (set_dist i x).
Proof.
  intros n b. unfold set_dist. simpl.
  by destruct (pl_set (min_dist_from_source b) i x).
Qed.

Lemma n_blind_visit_neighbours (cur : Z) (l : adjlist) (q : list Z) :
  n_blind (visit_neighbours cur l q).
Proof.
  revert q. induction l as [|[v w] l IH]; intros q; simpl; [done|].
  apply n_blind_bind; [apply n_blind_get_visited|]. intros seen.
  destruct seen; simpl; [apply IH|].
  apply n_blind_bind; [apply n_blind_set_visited|]. intros _.
  apply n_blind_bind; [apply n_blind_get_dist|]. intros dcur.
  apply n_blind_bind; [apply n_blind_set_dist|]. intros _. apply IH.
Qed.

Lemma n_blind_bfs_loop (fuel : nat) (q : list Z) : n_blind (bfs_loop fuel q).
Proof.
  revert q. induction fuel as [|fuel IH]; intros [|cur q]; simpl; try done.
  apply n_blind_bind; [apply n_blind_get_adj|]. intros l.
  apply n_blind_bind; [apply n_blind_visit_neighbours|]. intros q'. apply IH.
Qed.

Lemma n_blind__run_internal (source : Z) : n_blind (_run_internal source).
Proof.
  unfold _run_internal.
  apply n_blind_bind; [apply n_blind_set_visited|]. intros _.
  apply n_blind_bind; [apply n_blind_set_dist|]. intros _.
  intros n b. apply n_blind_bfs_loop.
Qed.

Lemma n_blind_do_call (c : call) : n_blind (do_call c).
Proof.
  destruct c; simpl; try done;
    (apply n_blind_bind; [|intros; apply n_blind_ret]).
  - apply n_blind_b_add_edge.
  - apply n_blind_bind; [apply n_blind_b_hash|]. apply n_blind__run_internal.
  - apply n_blind_bind; [apply n_blind_b_hash|]. apply n_blind_get_dist.
  - apply n_blind_bind; [apply n_blind_b_hash|]. apply n_blind_get_visited.
Qed.

Lemma do_calls_b_set_n (cs : list call) (n : Z) (b : BFS) :
  do_calls cs (b_set_n n b) = ((do_calls cs b).1, b_set_n n (do_calls cs b).2).
Proof.
  revert b. induction cs as [|c cs IH]; intros b; simpl; [done|].
  rewrite n_blind_do_call. destruct (do_call c b) as [r b']. simpl.
  rewrite IH. by destruct (do_calls cs b').
Qed.

(** C10. The argument [n] of [Graph(n, d)] is stored and never read: two
    stores built with different [n] give, for any sequence of [add_edge],
    [run], [min_dist], [is_visited] and [clear] calls, the same results and
    the same exceptions, and end in states that differ in the field [n]
    only.  The array has the 5,000,000 cells of [self.N] whatever [n] is. *)
Theorem constructor_n_unobservable (n1 n2 : Z) (d : bool) (cs : list call) :
  let b1 := BFS_init (Graph_init n1 d) in
  let b2 := BFS_init (Graph_init n2 d) in
  (do_calls cs b1).1 = (do_calls cs b2).1
  ∧ (do_calls cs b2).2 = b_set_n n2 (do_calls cs b1).2
  ∧ g_N (Graph_init n1 d) = 5000000
  ∧ pl_len (g_adj (Graph_init n1 d)) = 5000000
  ∧ pl_len (visited b1) = 5000000
  ∧ pl_len (min_dist_from_source b1) = 5000000.
Proof.
  intros b1 b2.
  assert (b2 = b_set_n n2 b1) as -> by done.
  rewrite do_calls_b_set_n. done.
Qed.

(** ** Breadth-first search *)

(** *** Reads and writes of the arrays *)

Lemma pl_get_not_OutOfFuel {A} (l : pylist A) (i : Z) : pl_get l i ≠ OutOfFuel.
Proof. unfold pl_get. by destruct (pl_index l i). Qed.

Lemma pl_set_not_OutOfFuel {A} (l : pylist A) (i : Z) (x : A) :
  pl_set l i x ≠ OutOfFuel.
Proof. unfold pl_set. by destruct (pl_index l i). Qed.

Lemma pl_index_upd {A} (l : pylist A) (j : Z) (x : A) (k : Z) :
  pl_index (pl_upd l j x) k = pl_index l k.
Proof. done. Qed.

Lemma pl_at_upd {A} (l : pylist A) (j : Z) (x : A) (k : Z) :
  pl_at (pl_upd l j x) k = if decide (j = k) then x else pl_at l k.
Proof. unfold pl_upd. rewrite pl_at_insert. by destruct l. Qed.

Lemma pl_set_in_range {A} (l : pylist A) (i : Z) (x : A) :
  0 ≤ i < pl_len l → pl_set l i x = Ok (pl_upd l i x).
Proof. intros H. unfold pl_set. by rewrite pl_index_in_range. Qed.

Lemma pl_set_above {A} (l : pylist A) (i : Z) (x : A) :
  0 ≤ i → pl_len l ≤ i → pl_set l i x = Raise IndexError.
Proof. intros H0 H1. unfold pl_set. by rewrite pl_index_above. Qed.

(** *** Termination of the [while] loop *)

Lemma elem_of_targets (adj : pylist adjlist) (v : Z) :
  v ∈ targets adj ↔ ∃ j w, (v, w) ∈ pl_at adj j.
Proof.
  unfold targets. rewrite elem_of_union, !elem_of_list_to_set.
  rewrite list_elem_of_join. split.
  - intros [Hfill|(l & Hv & Hl)].
    + (* a cell that was never written holds the fill value *)
      apply list_elem_of_fmap in Hfill as ([v' w] & -> & Hin).
      destruct (exist_fresh (dom (pl_cells adj))) as [j Hj].
      apply not_elem_of_dom in Hj. exists j, w.
      unfold pl_at. by rewrite Hj.
    + apply list_elem_of_fmap in Hl as ([j l'] & -> & Hjl).
      apply elem_of_map_to_list in Hjl. simpl in Hv.
      apply list_elem_of_fmap in Hv as ([v' w] & -> & Hin).
      exists j, w. unfold pl_at. by rewrite Hjl.
  - intros (j & w & Hin). unfold pl_at in Hin.
    destruct (pl_cells adj !! j) as [l|] eqn:E; simpl in Hin.
    + right. exists (l.*1). split.
      * apply list_elem_of_fmap. by exists (v, w).
      * apply list_elem_of_fmap. exists (j, l). split; [done|].
        by apply elem_of_map_to_list.
    + left. apply list_elem_of_fmap. by exists (v, w).
Qed.

Lemma visit_neighbours_not_OutOfFuel (cur : Z) (l : adjlist) (q : list Z)
    (b : BFS) :
  (visit_neighbours cur l q b).1 ≠ OutOfFuel.
Proof.
  revert q b. induction l as [|[v w] l IH]; intros q b; simpl; [done|].
  unfold bind, get_visited.
  pose proof (pl_get_not_OutOfFuel (visited b) v).
  destruct (pl_get (visited b) v) as [[|]|e|]; simpl; try done.
  unfold set_visited.
  pose proof (pl_set_not_OutOfFuel (visited b) v true).
  destruct (pl_set (visited b) v true) as [vis'|e|]; simpl; try done.
  unfold get_dist. simpl.
  pose proof (pl_get_not_OutOfFuel (min_dist_from_source b) cur).
  destruct (pl_get (min_dist_from_source b) cur) as [d|e|]; simpl; try done.
  unfold set_dist. simpl.
  pose proof (pl_set_not_OutOfFuel (min_dist_from_source b) v (d + 1)).
  destruct (pl_set (min_dist_from_source b) v (d + 1)) as [dist'|e|];
    simpl; try done.
Qed.

Lemma visit_neighbours_measure (cur : Z) (l : adjlist) (q q' : list Z)
    (b b' : BFS) :
  (∀ v w, (v, w) ∈ l → v ∈ targets (g_adj (g b))) →
  visit_neighbours cur l q b = (Ok q', b') →
  (length q' + size (unvisited b') ≤ length q + size (unvisited b))%nat.
Proof.
  revert q b. induction l as [|[v w] l IH]; intros q b Hl; simpl.
  { intros [= <- <-]. done. }
  unfold bind, get_visited.
  destruct (pl_get (visited b) v) as [[|]|e|] eqn:Eget; simpl; try done.
  { apply IH. intros v' w' Hin. apply (Hl v' w'). by right. }
  unfold set_visited, pl_set.
  destruct (pl_index (visited b) v) as [jv|] eqn:Ejv; simpl; [|done].
  unfold get_dist. simpl.
  destruct (pl_get (min_dist_from_source b) cur) as [d|e|]; simpl; try done.
  unfold set_dist. simpl.
  destruct (pl_set (min_dist_from_source b) v (d + 1)) as [dist'|e|];
    simpl; try done.
  intros E. apply IH in E; cycle 1.
  { intros v' w' Hin. apply (Hl v' w'). by right. }
  rewrite length_app in E. simpl in E.
  set (b1 := mkBFS (g b) dist' (pl_upd (visited b) jv true)) in *.
  assert (unvisited b1 ⊂ unvisited b) as Hsub.
  { assert (v ∈ unvisited b) as Hv.
    { apply elem_of_filter. split; [done|]. apply (Hl v w). by left. }
    assert (v ∉ unvisited b1) as Hv1.
    { intros [Hf _]%elem_of_filter. simpl in Hf. unfold pl_get in Hf.
      rewrite pl_index_upd, Ejv, pl_at_upd in Hf.
      by destruct (decide (jv = jv)). }
    split; [|intros Hsup; by apply Hv1, Hsup].
    intros x [Hf Ht]%elem_of_filter. apply elem_of_filter. split; [|done].
    simpl in Hf. unfold pl_get in Hf |- *. rewrite pl_index_upd in Hf.
    destruct (pl_index (visited b) x) as [jx|]; [|done].
    rewrite pl_at_upd in Hf. by destruct (decide (jv = jx)). }
  apply subset_size in Hsub. lia.
Qed.

Lemma visit_neighbours_g (cur : Z) (l : adjlist) (q : list Z) (b : BFS) :
  g (visit_neighbours cur l q b).2 = g b.
Proof.
  revert q b. induction l as [|[v w] l IH]; intros q b; simpl; [done|].
  unfold bind, get_visited.
  destruct (pl_get (visited b) v) as [[|]|e|]; simpl; try done.
  unfold set_visited.
  destruct (pl_set (visited b) v true) as [vis'|e|]; simpl; try done.
  unfold get_dist. simpl.
  destruct (pl_get (min_dist_from_source b) cur) as [d|e|]; simpl; try done.
  unfold set_dist. simpl.
  destruct (pl_set (min_dist_from_source b) v (d + 1)) as [dist'|e|];
    simpl; try done.
  by rewrite IH.
Qed.

Lemma pl_get_Ok_targets (adj : pylist adjlist) (i : Z) (l : adjlist) :
  pl_get adj i = Ok l → ∀ v w, (v, w) ∈ l → v ∈ targets adj.
Proof.
  unfold pl_get. destruct (pl_index adj i) as [j|]; [|done].
  intros [= <-] v w Hin. apply elem_of_targets. by exists j, w.
Qed.

(** The bound of [_run_internal] is enough: the loop ends by itself. *)
Lemma bfs_loop_terminates (fuel : nat) (q : list Z) (b : BFS) :
  (length q + size (unvisited b) ≤ fuel)%nat →
  (bfs_loop fuel q b).1 ≠ OutOfFuel.
Proof.
  revert q b. induction fuel as [|fuel IH]; intros [|cur q] b Hm; simpl in *;
    try done; [lia|].
  unfold bind, get_adj.
  destruct (pl_get (g_adj (g b)) cur) as [l|e|] eqn:El; simpl; try done;
    [|by apply pl_get_not_OutOfFuel in El].
  pose proof (visit_neighbours_not_OutOfFuel cur l q b) as Hno.
  pose proof (visit_neighbours_g cur l q b) as Hg.
  destruct (visit_neighbours cur l q b) as [[q'|e|] b'] eqn:Ev; simpl in *;
    try done.
  apply IH. apply visit_neighbours_measure in Ev; [lia|].
  by apply pl_get_Ok_targets with cur.
Qed.

(** *** The loop invariant *)

Lemma vis_at_mark (v d : Z) (b : BFS) (x : Z) :
  vis_at (mark v d b) x = if decide (v = x) then true else vis_at b x.
Proof. unfold vis_at, mark. simpl. apply pl_at_upd. Qed.

Lemma dist_at_mark (v d : Z) (b : BFS) (x : Z) :
  dist_at (mark v d b) x = if decide (v = x) then d else dist_at b x.
Proof. unfold dist_at, mark. simpl. apply pl_at_upd. Qed.

Lemma visit_neighbours_cons_in (cur v w : Z) (l : adjlist) (q : list Z)
    (b : BFS) :
  0 ≤ v < pl_len (visited b) →
  0 ≤ v < pl_len (min_dist_from_source b) →
  0 ≤ cur < pl_len (min_dist_from_source b) →
  visit_neighbours cur ((v, w) :: l) q b
  = if vis_at b v then visit_neighbours cur l q b
    else visit_neighbours cur l (q ++ [v]) (mark v (dist_at b cur + 1) b).
Proof.
  intros Hv Hv' Hc. simpl. unfold bind, get_visited.
  rewrite pl_get_in_range by done. unfold vis_at.
  destruct (pl_at (visited b) v); simpl; [done|].
  unfold set_visited. rewrite pl_set_in_range by done. simpl.
  unfold get_dist. simpl. rewrite pl_get_in_range by done. simpl.
  unfold set_dist. simpl. by rewrite pl_set_in_range by done.
Qed.

Section invariant.
Variables (adj : pylist adjlist) (s : Z).

Lemma visit_inv_seen (cur v w : Z) (seen : adjlist) (q : list Z) (b : BFS) :
  visit_inv adj s cur seen q b → vis_at b v = true →
  visit_inv adj s cur (seen ++ [(v, w)]) q b.
Proof.
  intros [] Hv. split; try done.
  intros x w' [Hin|Hin]%elem_of_app; [by eapply vi_seen0|].
  apply list_elem_of_singleton in Hin. simplify_eq. split; [done|].
  by apply vi_level0.
Qed.

Lemma visit_inv_mark (cur v w : Z) (seen : adjlist) (q : list Z) (b : BFS) :
  visit_inv adj s cur seen q b → vis_at b v = false →
  edge adj cur v → 0 ≤ v < pl_len adj →
  visit_inv adj s cur (seen ++ [(v, w)]) (q ++ [v])
    (mark v (dist_at b cur + 1) b).
Proof.
  intros [] Hv Hedge Hrange.
  assert (v ≠ cur) as Hvc by (intros ->; congruence).
  assert (v ≠ s) as Hvs by (intros ->; destruct vi_source0; congruence).
  assert (∀ x, vis_at b x = true → v ≠ x) as Hfresh
    by (intros x Hx ->; congruence).
  split; try done.
  - intros x. rewrite vis_at_mark. case_decide; [by subst|]. apply vi_range0.
  - rewrite vis_at_mark, dist_at_mark. by repeat case_decide.
  - intros x. rewrite vis_at_mark, dist_at_mark.
    case_decide as Hx; [subst x; intros _|apply vi_path0].
    destruct (vi_path0 cur vi_cur0) as (k & Hk & Hp).
    exists (S k). split; [lia|]. by eapply path_next.
  - intros x. rewrite vis_at_mark, dist_at_mark.
    case_decide; [done|]. apply vi_unvisited0.
  - intros x [Hin|Hin]%elem_of_app; rewrite vis_at_mark;
      case_decide; try done. by apply vi_queue0.
    apply list_elem_of_singleton in Hin. congruence.
  - rewrite vis_at_mark. by case_decide.
  - intros i j x y Hij Hx Hy. rewrite !dist_at_mark.
    destruct (decide (v = y)) as [->|Hy'].
    + case_decide; [lia|].
      assert (x ∈ q) as Hxq.
      { apply lookup_app_Some in Hx as [Hx|[_ Hx]].
        - by eapply list_elem_of_lookup_2.
        - apply list_lookup_singleton_Some in Hx as [_ ?]. congruence. }
      apply vi_level0. by apply vi_queue0.
    + apply lookup_app_Some in Hy as [Hy|[_ Hy]]; cycle 1.
      { apply list_lookup_singleton_Some in Hy as [_ ?]. congruence. }
      assert (q !! i = Some x) as Hx'.
      { apply lookup_app_Some in Hx as [Hx|[Hge _]]; [done|].
        apply lookup_lt_Some in Hy. lia. }
      case_decide as Hvx.
      * subst x. apply list_elem_of_lookup_2, vi_queue0 in Hx'. congruence.
      * by eapply vi_sorted0.
  - intros x Hin. rewrite !dist_at_mark.
    destruct (decide (v = cur)); [done|].
    case_decide; [lia|].
    apply elem_of_app in Hin as [Hin|Hin]; [by apply vi_low0|].
    apply list_elem_of_singleton in Hin. congruence.
  - intros x. rewrite vis_at_mark, !dist_at_mark.
    destruct (decide (v = cur)); [done|].
    case_decide; [lia|]. apply vi_level0.
  - intros u. rewrite vis_at_mark. intros Hu Hnq Hne x Hux.
    assert (v ≠ u) as Hvu.
    { intros ->. apply Hnq, elem_of_app. right. by left. }
    destruct (decide (v = u)); [done|].
    destruct (vi_done0 u Hu) with x as [Hx Hd]; try done.
    { intros Hin. apply Hnq, elem_of_app. by left. }
    rewrite vis_at_mark, !dist_at_mark.
    specialize (Hfresh x Hx). by repeat case_decide.
  - intros x w' Hin. rewrite vis_at_mark, !dist_at_mark.
    destruct (decide (v = cur)); [done|].
    case_decide; [split; [done|lia]|].
    apply elem_of_app in Hin as [Hin|Hin]; [by eapply vi_seen0|].
    apply list_elem_of_singleton in Hin. congruence.
Qed.

Lemma visit_neighbours_inv (cur : Z) (l seen : adjlist) (q : list Z)
    (b : BFS) :
  visit_inv adj s cur seen q b →
  (∀ x w, (x, w) ∈ l → edge adj cur x ∧ 0 ≤ x < pl_len adj) →
  ∃ q' b', visit_neighbours cur l q b = (Ok q', b')
           ∧ visit_inv adj s cur (seen ++ l) q' b'.
Proof.
  revert seen q b. induction l as [|[v w] l IH]; intros seen q b Hinv Hl.
  { exists q, b. by rewrite app_nil_r. }
  destruct (Hl v w) as [Hedge Hrange]; [by left|].
  assert (0 ≤ cur < pl_len adj) as Hcur.
  { apply (vi_range _ _ _ _ _ _ Hinv), (vi_cur _ _ _ _ _ _ Hinv). }
  rewrite visit_neighbours_cons_in; cycle 1.
  { by rewrite (vi_len_v _ _ _ _ _ _ Hinv). }
  { by rewrite (vi_len_d _ _ _ _ _ _ Hinv). }
  { by rewrite (vi_len_d _ _ _ _ _ _ Hinv). }
  replace (seen ++ (v, w) :: l) with ((seen ++ [(v, w)]) ++ l)
    by by rewrite <- app_assoc.
  destruct (vis_at b v) eqn:Hv.
  - apply IH; [by apply visit_inv_seen|].
    intros x w' Hin. apply (Hl x w'). by right.
  - apply IH; [by apply visit_inv_mark|].
    intros x w' Hin. apply (Hl x w'). by right.
Qed.

(** Once every neighbour of [cur] has been seen the loop invariant holds
    again, for the deque as it is now. *)
Lemma visit_inv_loop_inv (cur : Z) (q : list Z) (b : BFS) :
  visit_inv adj s cur (pl_at adj cur) q b → loop_inv adj s q b.
Proof.
  intros [].
  assert (∀ x, edge adj cur x →
            vis_at b x = true ∧ dist_at b x ≤ dist_at b cur + 1) as Hcur.
  { intros x [w Hw]. by eapply vi_seen0. }
  destruct q as [|y q]; simpl.
  - split; try done. intros u Hu x Hux.
    destruct (decide (u = cur)) as [->|Hne]; [by apply Hcur|].
    apply vi_done0; try done. by intros ?%elem_of_nil.
  - assert (dist_at b cur ≤ dist_at b y) as Hy by (apply vi_low0; by left).
    split; try done.
    + intros x Hx. apply vi_queue0. by right.
    + apply vi_queue0. by left.
    + intros i j x x' Hij Hx Hx'.
      apply (vi_sorted0 (S i) (S j)); [lia|done..].
    + intros x Hx. apply list_elem_of_lookup_1 in Hx as [j Hj].
      apply (vi_sorted0 O (S j)); [lia|done..].
    + intros v Hv. specialize (vi_level0 v Hv). lia.
    + intros u Hu Hnq Hne x Hux.
      destruct (decide (u = cur)) as [->|Hne']; [by apply Hcur|].
      apply vi_done0; try done. intros [->|Hin]%elem_of_cons; done.
    + by intros x w ?%elem_of_nil.
Qed.

Hypothesis edges_in_range : ∀ u x, edge adj u x → 0 ≤ x < pl_len adj.

Lemma bfs_loop_inv (fuel : nat) (q : list Z) (b : BFS) :
  g_adj (g b) = adj →
  loop_inv adj s q b →
  (bfs_loop fuel q b).1 ≠ OutOfFuel →
  ∃ b', bfs_loop fuel q b = (Ok (), b') ∧ bfs_done adj s b' ∧ g b' = g b.
Proof.
  revert q b. induction fuel as [|fuel IH]; intros [|cur q] b Hadj Hinv;
    simpl; try done; try by (intros _; exists b).
  simpl in Hinv.
  assert (0 ≤ cur < pl_len adj) as Hcur.
  { apply (vi_range _ _ _ _ _ _ Hinv), (vi_cur _ _ _ _ _ _ Hinv). }
  unfold bind, get_adj. rewrite Hadj, pl_get_in_range by done. simpl.
  destruct (visit_neighbours_inv cur (pl_at adj cur) [] q b Hinv)
    as (q' & b' & E & Hinv').
  { intros x w Hin. split; [by exists w|].
    apply (edges_in_range cur). by exists w. }
  pose proof (visit_neighbours_g cur (pl_at adj cur) q b) as Hg.
  rewrite E in Hg |- *. simpl in Hg. intros Hfuel.
  destruct (IH q' b') as (b'' & E' & Hdone & Hg'); try done.
  - by rewrite Hg.
  - by apply visit_inv_loop_inv with cur.
  - exists b''. by rewrite Hg' in *.
Qed.

Lemma bfs_done_path (b : BFS) :
  bfs_done adj s b →
  ∀ k v, path adj s k v → vis_at b v = true ∧ dist_at b v ≤ Z.of_nat k.
Proof.
  intros [] k v Hp. induction Hp as [|k v x Hp [IHv IHd] Hedge].
  - destruct bd_source0. split; [done|lia].
  - destruct (bd_closed0 v IHv x Hedge) as [Hx Hd]. split; [done|lia].
Qed.

Lemma bfs_done_reachable (b : BFS) (v : Z) :
  bfs_done adj s b → reachable adj s v →
  ∃ k, hop_distance adj s v k
       ∧ vis_at b v = true ∧ dist_at b v = Z.of_nat k
       ∧ 0 ≤ v < pl_len adj.
Proof.
  intros Hdone [j Hj].
  destruct (bfs_done_path b Hdone j v Hj) as [Hv _].
  destruct (bd_path _ _ _ Hdone v Hv) as (k & Hk & Hp).
  exists k. split; [|split; [done|split; [done|]]].
  - split; [done|]. intros i Hi.
    destruct (bfs_done_path b Hdone i v Hi) as [_ Hle]. lia.
  - by apply (bd_range _ _ _ Hdone).
Qed.

Lemma bfs_done_unreachable (b : BFS) (v : Z) :
  bfs_done adj s b → ¬ reachable adj s v →
  vis_at b v = false ∧ dist_at b v = -1.
Proof.
  intros Hdone Hnr.
  destruct (vis_at b v) eqn:Hv.
  - destruct (bd_path _ _ _ Hdone v Hv) as (k & _ & Hp).
    destruct Hnr. by exists k.
  - split; [done|]. by apply (bd_unvisited _ _ _ Hdone).
Qed.
End invariant.

Lemma unvisited_size (b : BFS) :
  (size (unvisited b) ≤ size (targets (g_adj (g b))))%nat.
Proof.
  apply subseteq_size. intros x Hx.
  by apply elem_of_filter in Hx as [_ Hx].
Qed.

#[local] Arguments bfs_loop : simpl never.

(** [_run_internal] never reaches its bound. *)
Lemma _run_internal_terminates (source : Z) (b : BFS) :
  (_run_internal source b).1 ≠ OutOfFuel.
Proof.
  unfold _run_internal, bind, set_visited.
  pose proof (pl_set_not_OutOfFuel (visited b) source true).
  destruct (pl_set (visited b) source true) as [vis'|e|]; simpl; try done.
  unfold set_dist. simpl.
  pose proof (pl_set_not_OutOfFuel (min_dist_from_source b) source 0).
  destruct (pl_set (min_dist_from_source b) source 0) as [dist'|e|];
    simpl; try done.
  apply bfs_loop_terminates. unfold run_bound. simpl.
  pose proof (unvisited_size (mkBFS (g b) dist' vis')). simpl in *. lia.
Qed.

(** From an idle traversal (nothing visited, every distance [-1]) and a
    source inside the arrays, [_run_internal] returns and leaves the arrays
    in a state described by [bfs_done]. *)
Lemma _run_internal_done (source : Z) (b : BFS) :
  let adj := g_adj (g b) in
  pl_len (visited b) = pl_len adj →
  pl_len (min_dist_from_source b) = pl_len adj →
  (∀ v, vis_at b v = false) →
  (∀ v, dist_at b v = -1) →
  (∀ u x, edge adj u x → 0 ≤ x < pl_len adj) →
  0 ≤ source < pl_len adj →
  ∃ b', _run_internal source b = (Ok (), b')
        ∧ bfs_done adj source b' ∧ g b' = g b.
Proof.
  intros adj Hlv Hld Hv Hd Hedges Hs.
  pose proof (_run_internal_terminates source b) as Hterm.
  unfold _run_internal, bind, set_visited in Hterm |- *.
  rewrite pl_set_in_range in Hterm |- * by lia. simpl in Hterm |- *.
  unfold set_dist in Hterm |- *. simpl in Hterm |- *.
  rewrite pl_set_in_range in Hterm |- * by lia. simpl in Hterm |- *.
  change (mkBFS (g b) (pl_upd (min_dist_from_source b) source 0)
            (pl_upd (visited b) source true))
    with (mark source 0 b) in Hterm |- *.
  destruct (bfs_loop_inv adj source Hedges
              (run_bound (mark source 0 b)) [source] (mark source 0 b))
    as (b' & E & Hdone & Hg); try done.
  - simpl. split; simpl; try done.
    + intros v. rewrite vis_at_mark. case_decide; [by subst|].
      by rewrite Hv.
    + rewrite vis_at_mark, dist_at_mark. by case_decide.
    + intros v. rewrite vis_at_mark, dist_at_mark.
      case_decide; [subst v|by rewrite Hv].
      intros _. exists O. split; [done|]. constructor.
    + intros v. rewrite vis_at_mark, dist_at_mark. by case_decide.
    + by intros x ?%elem_of_nil.
    + rewrite vis_at_mark. by case_decide.
    + by intros x ?%elem_of_nil.
    + intros v. rewrite vis_at_mark, !dist_at_mark.
      destruct (decide (source = source)); [|done].
      case_decide; [lia|by rewrite Hv].
    + intros u. rewrite vis_at_mark.
      case_decide; [by subst|by rewrite Hv].
    + by intros x w ?%elem_of_nil.
  - by exists b'.
Qed.

Lemma graph_wf_edges_in_range (gr : Graph) (t : Hash) :
  graph_wf gr → (size (g_h gr) ≤ size t)%nat → Z.of_nat (size t) ≤ 5000000 →
  ∀ u x, edge (g_adj gr) u x → 0 ≤ x < pl_len (g_adj gr).
Proof.
  intros Hwf Hs Hcap u x [w Hw].
  apply (wf_targets _ Hwf) in Hw.
  rewrite (wf_len _ Hwf), (wf_N _ Hwf). lia.
Qed.

(** C1. On a store whose ids stay inside the array, [run(source)] on a
    fresh (or cleared) traversal returns; afterwards every id reachable
    from the source's id along adjacency entries is visited and its
    distance is the minimum number of edge traversals from the source; a
    key whose id is reachable is reported with that distance, and a key
    whose id is not reachable is reported with distance [-1] and not
    visited; a key the index has never seen is among the latter. *)
Theorem run_hop_distances (gr : Graph) (source : NodeKey) (sid : Z)
    (t1 : Hash) :
  graph_wf gr →
  Hash_hash (key_val source) (g_h gr) = (Ok sid, t1) →
  Z.of_nat (size t1) ≤ 5000000 →
  ∃ b', run (key_val source) (BFS_init gr) = (Ok (), b')
    ∧ g b' = set_h t1 gr
    ∧ (∀ v, reachable (g_adj gr) sid v →
         ∃ k, hop_distance (g_adj gr) sid v k
              ∧ _is_visited_internal v b' = (Ok true, b')
              ∧ _min_dist_internal v b' = (Ok (Z.of_nat k), b'))
    ∧ (∀ (target : NodeKey) (tid : Z) (t2 : Hash),
         Hash_hash (key_val target) t1 = (Ok tid, t2) →
         Z.of_nat (size t2) ≤ 5000000 →
         (∀ k, hop_distance (g_adj gr) sid tid k →
            min_dist (key_val target) b'
            = (Ok (Z.of_nat k), set_g (set_h t2 gr) b')
            ∧ is_visited (key_val target) b'
              = (Ok true, set_g (set_h t2 gr) b'))
         ∧ (¬ reachable (g_adj gr) sid tid →
            min_dist (key_val target) b'
            = (Ok (-1), set_g (set_h t2 gr) b')
            ∧ is_visited (key_val target) b'
              = (Ok false, set_g (set_h t2 gr) b'))
         ∧ (t1 !! normalize target = None →
            ¬ reachable (g_adj gr) sid tid)).
Proof.
  intros Hwf E1 Hcap.
  destruct (Hash_hash_Ok_range _ _ _ _ (wf_hash _ Hwf) E1) as [Rs Hwf1].
  pose proof (Hash_hash_size (key_val source) (g_h gr)) as Hs1.
  rewrite E1 in Hs1. simpl in Hs1.
  assert (pl_len (g_adj gr) = 5000000) as Hlen.
  { rewrite (wf_len _ Hwf). apply Hwf. }
  set (b0 := set_g (set_h t1 gr) (BFS_init gr)).
  destruct (_run_internal_done sid b0) as (b' & Erun & Hdone & Hg).
  - simpl. rewrite (wf_N _ Hwf). by rewrite Hlen.
  - simpl. rewrite (wf_N _ Hwf). by rewrite Hlen.
  - intros v. apply pl_at_new.
  - intros v. apply pl_at_new.
  - simpl. by apply graph_wf_edges_in_range with t1.
  - simpl. lia.
  - simpl in Hdone, Hg.
    assert (∀ v, 0 ≤ v < 5000000 →
              _is_visited_internal v b' = (Ok (vis_at b' v), b')
              ∧ _min_dist_internal v b' = (Ok (dist_at b' v), b')) as Hread.
    { intros v Hv.
      unfold _is_visited_internal, _min_dist_internal, get_visited, get_dist.
      rewrite !pl_get_in_range; [done|..].
      - rewrite (bd_len_d _ _ _ Hdone). lia.
      - rewrite (bd_len_v _ _ _ Hdone). lia. }
    exists b'. split; [|split; [done|split]].
    + unfold run, bind.
      rewrite (b_hash_Ok _ (BFS_init gr) sid t1) by done. exact Erun.
    + intros v Hv.
      destruct (bfs_done_reachable _ _ b' v Hdone Hv)
        as (k & Hk & Hvis & Hdist & Hrange).
      exists k. split; [done|].
      destruct (Hread v) as [-> ->]; [lia|]. by rewrite Hvis, Hdist.
    + intros target tid t2 E2 Hcap2.
      destruct (Hash_hash_Ok_range _ _ _ _ Hwf1 E2) as [Rt _].
      assert (b_hash (key_val target) b'
              = (Ok tid, set_g (set_h t2 gr) b')) as Eh.
      { rewrite (b_hash_Ok _ b' tid t2); [by rewrite Hg|].
        by rewrite Hg. }
      assert (0 ≤ tid < 5000000) as Rt' by lia.
      assert (∀ b'', vis_at (set_g (set_h t2 gr) b'') = vis_at b''
                     ∧ dist_at (set_g (set_h t2 gr) b'') = dist_at b'')
        as Hsame by done.
      assert (min_dist (key_val target) b'
              = (Ok (dist_at b' tid), set_g (set_h t2 gr) b')
              ∧ is_visited (key_val target) b'
                = (Ok (vis_at b' tid), set_g (set_h t2 gr) b')) as [-> ->].
      { unfold min_dist, is_visited, bind. rewrite Eh.
        unfold _is_visited_internal, _min_dist_internal, get_visited,
          get_dist. simpl.
        rewrite !pl_get_in_range; [done|..].
        - rewrite (bd_len_v _ _ _ Hdone). lia.
        - rewrite (bd_len_d _ _ _ Hdone). lia. }
      split.
      * intros k Hk.
        destruct (bfs_done_reachable _ _ b' tid Hdone)
          as (k' & Hk' & Hvis & Hdist & _); [by exists k; apply Hk|].
        assert (k' = k) as ->.
        { destruct Hk as [Hp Hmin], Hk' as [Hp' Hmin'].
          apply Hmin in Hp'. apply Hmin' in Hp. lia. }
        by rewrite Hvis, Hdist.
      * split.
        { intros Hnr.
          destruct (bfs_done_unreachable _ _ b' tid Hdone Hnr) as [-> ->].
          done. }
        intros Hnew [k Hp].
        rewrite Hash_hash_key_val, hash_store_eq, Hnew in E2.
        simplify_eq.
        inversion Hp as [|k' v x Hp' [w Hw]]; subst; [lia|].
        apply (wf_targets _ Hwf) in Hw. lia.
Qed.

Lemma run_hop_distances_witness :
  let gr := (add_edge (PInt 1) (PInt 2) 0
               (add_edge (PInt 0) (PInt 1) 0 (Graph_init 5 true)).2).2 in
  graph_wf gr
  ∧ Hash_hash (key_val (Scalar 0)) (g_h gr) = (Ok 0, g_h gr)
  ∧ Z.of_nat (size (g_h gr)) ≤ 5000000
  ∧ ∃ b', run (key_val (Scalar 0)) (BFS_init gr) = (Ok (), b')
          ∧ g b' = set_h (g_h gr) gr.
Proof.
  intros gr.
  assert (Hwf : graph_wf gr) by (do 2 apply add_edge_wf; apply Graph_init_wf).
  assert (E : Hash_hash (key_val (Scalar 0)) (g_h gr) = (Ok 0, g_h gr))
    by reflexivity.
  assert (Hcap : Z.of_nat (size (g_h gr)) ≤ 5000000) by (vm_compute; done).
  split; [exact Hwf|]. split; [exact E|]. split; [exact Hcap|].
  destruct (run_hop_distances gr (Scalar 0) 0 (g_h gr) Hwf E Hcap)
    as (b' & Hrun & Hg & _).
  exists b'. split; [exact Hrun|exact Hg].
Defined.

(** ** Capacity *)

Lemma pl_upd_bounded {A} (l : pylist A) (i j : Z) (x : A) :
  pl_index l i = Some j → pl_bounded l → pl_bounded (pl_upd l j x).
Proof.
  intros Hi Hb k y. simpl. rewrite lookup_insert.
  case_decide; [|apply Hb]. intros _. subst k. by eapply pl_index_Some.
Qed.

(** What [set_visited] and [set_dist] keep, the loops keep. *)
Section preserved.
Variable P : BFS → Prop.
Hypothesis P_set_visited : ∀ i x b, P b → P (set_visited i x b).2.
Hypothesis P_set_dist : ∀ i x b, P b → P (set_dist i x b).2.

Lemma visit_neighbours_preserves (cur : Z) (l : adjlist) (q : list Z)
    (b : BFS) :
  P b → P (visit_neighbours cur l q b).2.
Proof.
  revert q b. induction l as [|[v w] l IH]; intros q b Hb; simpl; [done|].
  unfold bind. unfold get_visited at 1.
  destruct (pl_get (visited b) v) as [[|]|e|]; simpl; try done;
    [by apply IH|].
  pose proof (P_set_visited v true b Hb) as H1.
  destruct (set_visited v true b) as [[[]|e|] b1]; simpl in *; try done.
  destruct (pl_get (min_dist_from_source b1) cur) as [d|e|]; simpl;
    try done.
  pose proof (P_set_dist v (d + 1) b1 H1) as H2.
  destruct (set_dist v (d + 1) b1) as [[[]|e|] b2]; simpl in *; try done.
  by apply IH.
Qed.

Lemma bfs_loop_preserves (fuel : nat) (q : list Z) (b : BFS) :
  P b → P (bfs_loop fuel q b).2.
Proof.
  revert q b. induction fuel as [|fuel IH]; intros [|cur q] b Hb;
    try done.
  unfold bfs_loop; fold bfs_loop. unfold bind, get_adj.
  destruct (pl_get (g_adj (g b)) cur) as [l|e|]; simpl; try done.
  pose proof (visit_neighbours_preserves cur l q b Hb) as H1.
  destruct (visit_neighbours cur l q b) as [[q'|e|] b1]; simpl in *;
    try done.
  by apply IH.
Qed.

Lemma _run_internal_preserves (source : Z) (b : BFS) :
  P b → P (_run_internal source b).2.
Proof.
  intros Hb. unfold _run_internal, bind.
  pose proof (P_set_visited source true b Hb) as H1.
  destruct (set_visited source true b) as [[[]|e|] b1]; simpl in *;
    try done.
  pose proof (P_set_dist source 0 b1 H1) as H2.
  destruct (set_dist source 0 b1) as [[[]|e|] b2]; simpl in *; try done.
  by apply bfs_loop_preserves.
Qed.
End preserved.

Lemma _run_internal_wf (source : Z) (b : BFS) :
  bfs_wf b → bfs_wf (_run_internal source b).2.
Proof.
  apply _run_internal_preserves.
  - intros i x b0 []. unfold set_visited, pl_set.
    destruct (pl_index (visited b0) i) as [j|] eqn:E; simpl; [|done].
    split; simpl; try done. by apply pl_upd_bounded with i.
  - intros i x b0 []. unfold set_dist, pl_set.
    destruct (pl_index (min_dist_from_source b0) i) as [j|] eqn:E; simpl;
      [|done].
    split; simpl; try done. by apply pl_upd_bounded with i.
Qed.

Lemma b_hash_wf (x : pyval) (b : BFS) : bfs_wf b → bfs_wf (b_hash x b).2.
Proof.
  intros []. unfold b_hash.
  pose proof (g_hash_wf x (g b) bwf_graph0) as Hg.
  destruct (g_hash x (g b)) as [r gr]. by split.
Qed.

Lemma run_wf (source : pyval) (b : BFS) : bfs_wf b → bfs_wf (run source b).2.
Proof.
  intros Hb. unfold run, bind.
  pose proof (b_hash_wf source b Hb) as H1.
  destruct (b_hash source b) as [[sid|e|] b1]; simpl in *; try done.
  by apply _run_internal_wf.
Qed.

Lemma BFS_init_wf (gr : Graph) : graph_wf gr → bfs_wf (BFS_init gr).
Proof.
  intros Hwf. split; simpl; try done.
  - by rewrite (wf_N _ Hwf).
  - by rewrite (wf_N _ Hwf).
Qed.

(** C2. The capacity that is enforced is the length 5,000,000 of the
    arrays, through [IndexError]; the constructor argument plays no part.
    [add_edge] raises [IndexError] exactly when the id of its first
    endpoint, or on an undirected store that of its second endpoint, is at
    least 5,000,000, and leaves a store in which no cell outside the array
    is written; [run] raises [IndexError] before writing anything to its
    arrays when the id of the source is at least 5,000,000, and never
    writes a cell outside them. *)
Theorem index_error_at_array_length (b : BFS) (u v : pyval) (w ida idb : Z)
    (t1 t2 : Hash) :
  bfs_wf b →
  Hash_hash u (g_h (g b)) = (Ok ida, t1) →
  Hash_hash v t1 = (Ok idb, t2) →
  let gr := g b in
  ((add_edge u v w gr).1 = Raise IndexError
   ↔ 5000000 ≤ ida ∨ (g_is_directed gr = false ∧ 5000000 ≤ idb))
  ∧ graph_wf (add_edge u v w gr).2
  ∧ pl_bounded (g_adj (add_edge u v w gr).2)
  ∧ pl_len (g_adj (add_edge u v w gr).2) = 5000000
  ∧ (5000000 ≤ ida → run u b = (Raise IndexError, set_g (set_h t1 gr) b))
  ∧ bfs_wf (run u b).2.
Proof.
  intros Hb E1 E2 gr.
  pose proof (bwf_graph _ Hb) as Hwf. fold gr in Hwf, E1.
  destruct (Hash_hash_Ok_range _ _ _ _ (wf_hash _ Hwf) E1) as [Ra Hwf1].
  destruct (Hash_hash_Ok_range _ _ _ _ Hwf1 E2) as [Rb _].
  assert (pl_len (g_adj gr) = 5000000) as Hlen.
  { rewrite (wf_len _ Hwf). apply Hwf. }
  pose proof (add_edge_wf u v w gr Hwf) as Hwf'.
  split; [|split; [done|split; [|split; [|split]]]].
  - rewrite (add_edge_cases gr u v w ida idb t1 t2) by (done || lia).
    cbv zeta. rewrite Hlen.
    destruct (decide (ida < 5000000)), (g_is_directed gr); simpl.
    + split; [done|]. intros [?|[? _]]; [lia|done].
    + destruct (decide (idb < 5000000)); simpl.
      * split; [done|]. intros [?|[_ ?]]; lia.
      * split; [|done]. intros _. right. split; [done|lia].
    + split; [|done]. intros _. left. lia.
    + split; [|done]. intros _. left. lia.
  - intros j x. apply Hwf'.
  - rewrite (wf_len _ Hwf'). apply Hwf'.
  - intros Hge. unfold run, bind.
    rewrite (b_hash_Ok u b ida t1) by done. fold gr.
    unfold _run_internal, bind, set_visited. simpl.
    rewrite pl_set_above; [done|lia|].
    rewrite (bwf_len_v _ Hb). lia.
  - by apply run_wf.
Qed.

Lemma index_error_at_array_length_witness :
  let b := BFS_init (Graph_init 1 false) in
  bfs_wf b
  ∧ Hash_hash (PInt 0) (g_h (g b)) = (Ok 0, {[ (0, 0, 0) := 0 ]})
  ∧ Hash_hash (PInt 1) {[ (0, 0, 0) := 0 ]}
    = (Ok 1, <[ (1, 0, 0) := 1 ]> {[ (0, 0, 0) := 0 ]})
  ∧ graph_wf (add_edge (PInt 0) (PInt 1) 3 (g b)).2
  ∧ bfs_wf (run (PInt 0) b).2.
Proof.
  intros b.
  assert (Hb : bfs_wf b) by apply BFS_init_wf, Graph_init_wf.
  assert (E1 : Hash_hash (PInt 0) (g_h (g b)) = (Ok 0, {[ (0, 0, 0) := 0 ]}))
    by reflexivity.
  assert (E2 : Hash_hash (PInt 1) {[ (0, 0, 0) := 0 ]}
               = (Ok 1, <[ (1, 0, 0) := 1 ]> {[ (0, 0, 0) := 0 ]}))
    by reflexivity.
  split; [exact Hb|]. split; [exact E1|]. split; [exact E2|].
  destruct (index_error_at_array_length b (PInt 0) (PInt 1) 3 0 1 _ _
              Hb E1 E2) as (_ & Hwf & _ & _ & _ & Hrun).
  split; [exact Hwf|exact Hrun].
Defined.

(** C2, the claim as written fails: the argument [n] is not a bound.  On
    [Graph(1, False)] the key [1] resolves to id [1 >= n]; [add_edge(0, 1,
    3)] returns normally and writes the adjacency list at index 1, and
    [run(1)] returns normally as well. *)
Lemma add_edge_beyond_n :
  let gr := Graph_init 1 false in
  let gr' := (add_edge (PInt 0) (PInt 1) 3 gr).2 in
  g_n gr = 1
  ∧ (add_edge (PInt 0) (PInt 1) 3 gr).1 = Ok ()
  ∧ Hash_hash (PInt 1) (g_h gr') = (Ok 1, g_h gr')
  ∧ pl_cells (g_adj gr') !! 1 = Some [(0, 3)]
  ∧ (run (PInt 1) (BFS_init gr')).1 = Ok ().
Proof. vm_compute. done. Qed.

(** ** Weights *)

Lemma pl_at_erase_weights (adj : pylist adjlist) (j : Z) :
  pl_at (erase_weights adj) j = (pl_at adj j).*1.
Proof.
  unfold pl_at, erase_weights. simpl. rewrite lookup_fmap.
  by destruct (pl_cells adj !! j).
Qed.

Lemma pl_get_erase_weights (adj1 adj2 : pylist adjlist) (i : Z) :
  erase_weights adj1 = erase_weights adj2 →
  match pl_get adj1 i, pl_get adj2 i with
  | Ok l1, Ok l2 => l1.*1 = l2.*1
  | Raise e1, Raise e2 => e1 = e2
  | _, _ => False
  end.
Proof.
  intros He. unfold pl_get.
  assert (pl_index adj1 i = pl_index adj2 i) as ->.
  { change (pl_index (erase_weights adj1) i = pl_index (erase_weights adj2) i).
    by rewrite He. }
  destruct (pl_index adj2 i) as [j|]; [|done].
  by rewrite <- !pl_at_erase_weights, He.
Qed.

Lemma targets_erase_weights (adj1 adj2 : pylist adjlist) :
  erase_weights adj1 = erase_weights adj2 → targets adj1 = targets adj2.
Proof.
  intros He. apply set_eq. intros v. rewrite !elem_of_targets.
  assert (∀ adj, (∃ j w, (v, w) ∈ pl_at adj j)
                 ↔ ∃ j, v ∈ pl_at (erase_weights adj) j) as Hiff.
  { intros adj. split.
    - intros (j & w & Hin). exists j. rewrite pl_at_erase_weights.
      apply list_elem_of_fmap. by exists (v, w).
    - intros (j & Hin). rewrite pl_at_erase_weights in Hin.
      apply list_elem_of_fmap in Hin as ([v' w] & -> & Hin). by exists j, w. }
  by rewrite !Hiff, He.
Qed.

Lemma bind_ext {S A B} (m : M S A) (k1 k2 : A → M S B) (s : S) :
  (∀ a s', k1 a s' = k2 a s') → bind m k1 s = bind m k2 s.
Proof. intros H. unfold bind. by destruct (m s) as [[a|e|] s']. Qed.

Lemma g_free_bind {A B} (m : M BFS A) (k : A → M BFS B) :
  g_free m → (∀ a, g_free (k a)) → g_free (bind m k).
Proof.
  intros Hm Hk gr b. unfold bind. rewrite Hm.
  destruct (m b) as [[a|e|] b']; simpl; [apply Hk|done..].
Qed.

Lemma g_free_set_visited (i : Z) (x : bool) : g_free (set_visited i x).
Proof.
  intros gr b. unfold set_visited. simpl. by destruct (pl_set (visited b) i x).
Qed.

Lemma g_free_set_dist (i x : Z) : g_free (set_dist i x).
Proof.
  intros gr b. unfold set_dist. simpl.
  by destruct (pl_set (min_dist_from_source b) i x).
Qed.

Lemma g_free_visit_neighbours (cur : Z) (l : adjlist) (q : list Z) :
  g_free (visit_neighbours cur l q).
Proof.
  revert q. induction l as [|[v w] l IH]; intros q; simpl; [done|].
  apply g_free_bind; [done|]. intros seen.
  destruct seen; simpl; [apply IH|].
  apply g_free_bind; [apply g_free_set_visited|]. intros _.
  apply g_free_bind; [done|]. intros dcur.
  apply g_free_bind; [apply g_free_set_dist|]. intros _. apply IH.
Qed.

(** The loop body looks at the neighbour ids only. *)
Lemma visit_neighbours_fst (cur : Z) (l1 l2 : adjlist) (q : list Z) (b : BFS) :
  l1.*1 = l2.*1 → visit_neighbours cur l1 q b = visit_neighbours cur l2 q b.
Proof.
  revert l2 q b.
  induction l1 as [|[v w1] l1 IH]; intros [|[v' w2] l2] q b Hl; try done.
  simpl in Hl. simplify_eq. simpl.
  apply bind_ext. intros [|] b0; simpl; [by apply IH|].
  do 3 (apply bind_ext; intros ? ?). by apply IH.
Qed.

Lemma bfs_loop_weights (fuel : nat) (q : list Z) (b : BFS) (gr2 : Graph) :
  erase_weights (g_adj gr2) = erase_weights (g_adj (g b)) →
  bfs_loop fuel q (set_g gr2 b)
  = ((bfs_loop fuel q b).1, set_g gr2 (bfs_loop fuel q b).2).
Proof.
  revert q b. induction fuel as [|fuel IH]; intros [|cur q] b He; try done.
  unfold bfs_loop; fold bfs_loop. unfold bind, get_adj. simpl g.
  pose proof (pl_get_erase_weights _ _ cur He) as Hget.
  destruct (pl_get (g_adj gr2) cur) as [l2|e2|],
           (pl_get (g_adj (g b)) cur) as [l1|e1|]; try done;
    [|by simplify_eq].
  rewrite (visit_neighbours_fst cur l2 l1) by done.
  rewrite g_free_visit_neighbours.
  pose proof (visit_neighbours_g cur l1 q b) as Hg.
  destruct (visit_neighbours cur l1 q b) as [[q'|e|] b1]; simpl in *;
    try done.
  apply IH. by rewrite Hg.
Qed.

Lemma _run_internal_weights (source : Z) (b : BFS) (gr2 : Graph) :
  erase_weights (g_adj gr2) = erase_weights (g_adj (g b)) →
  _run_internal source (set_g gr2 b)
  = ((_run_internal source b).1, set_g gr2 (_run_internal source b).2).
Proof.
  intros He. unfold _run_internal, bind.
  rewrite g_free_set_visited.
  assert (g (set_visited source true b).2 = g b) as Hg1.
  { unfold set_visited. by destruct (pl_set (visited b) source true). }
  destruct (set_visited source true b) as [[[]|e|] b1]; simpl in *;
    try done.
  rewrite g_free_set_dist.
  assert (g (set_dist source 0 b1).2 = g b1) as Hg2.
  { unfold set_dist.
    by destruct (pl_set (min_dist_from_source b1) source 0). }
  destruct (set_dist source 0 b1) as [[[]|e|] b2]; simpl in *; try done.
  assert (run_bound (set_g gr2 b2) = run_bound b2) as ->.
  { unfold run_bound. simpl. f_equal. f_equal.
    apply targets_erase_weights. by rewrite Hg2, Hg1. }
  apply bfs_loop_weights. by rewrite Hg2, Hg1.
Qed.

Lemma _run_internal_g (source : Z) (b : BFS) :
  g (_run_internal source b).2 = g b.
Proof.
  apply (_run_internal_preserves (λ b', g b' = g b)); try done.
  - intros i x b0 Hb0. unfold set_visited.
    by destruct (pl_set (visited b0) i x).
  - intros i x b0 Hb0. unfold set_dist.
    by destruct (pl_set (min_dist_from_source b0) i x).
Qed.

Lemma set_h_same_but_weights (gr1 gr2 : Graph) (t : Hash) :
  same_but_weights gr1 gr2 → same_but_weights (set_h t gr1) (set_h t gr2).
Proof. intros []. by split. Qed.

(** Building two stores with the same calls but other weights gives stores
    that differ in their weights only. *)
Lemma add_edge_same_but_weights (gr1 gr2 : Graph) (u v : pyval) (w1 w2 : Z) :
  same_but_weights gr1 gr2 →
  (add_edge u v w1 gr1).1 = (add_edge u v w2 gr2).1
  ∧ same_but_weights (add_edge u v w1 gr1).2 (add_edge u v w2 gr2).2.
Proof.
  intros Hsw. pose proof Hsw as [Hn Hd HN Hh Hadj].
  assert (∀ x y z1 z2 ga gb, same_but_weights ga gb →
    (_add_edge_weighted_undirected x y z1 ga).1
    = (_add_edge_weighted_undirected x y z2 gb).1
    ∧ same_but_weights (_add_edge_weighted_undirected x y z1 ga).2
        (_add_edge_weighted_undirected x y z2 gb).2) as Hpush.
  { intros x y z1 z2 ga gb [Hn' Hd' HN' Hh' Hadj'].
    unfold _add_edge_weighted_undirected.
    assert (pl_index (g_adj ga) x = pl_index (g_adj gb) x) as ->.
    { change (pl_index (erase_weights (g_adj ga)) x
              = pl_index (erase_weights (g_adj gb)) x). by rewrite Hadj'. }
    destruct (pl_index (g_adj gb) x) as [j|]; simpl; [|done].
    split; [done|]. split; simpl; try done.
    unfold erase_weights, adj_push. simpl.
    injection Hadj' as Hl Hf Hc. rewrite Hl, Hf. f_equal.
    rewrite !fmap_insert, Hc. f_equal.
    rewrite !fmap_app. f_equal.
    rewrite <- !pl_at_erase_weights. unfold erase_weights.
    by rewrite Hl, Hf, Hc. }
  unfold add_edge, bind, g_hash. rewrite Hh.
  destruct (Hash_hash u (g_h gr2)) as [[ida|e|] t1]; simpl;
    try (split; [done|by apply set_h_same_but_weights]).
  destruct (Hash_hash v t1) as [[idb|e|] t2]; simpl;
    try (split; [done|by apply set_h_same_but_weights]).
  unfold _add_edge_internal, bind.
  destruct (Hpush ida idb w1 w2 (set_h t2 (set_h t1 gr1))
              (set_h t2 (set_h t1 gr2))) as [Hr Hs];
    [by do 2 apply set_h_same_but_weights|].
  destruct (_add_edge_weighted_undirected ida idb w1 (set_h t2 (set_h t1 gr1)))
    as [[[]|e1|] ga],
    (_add_edge_weighted_undirected ida idb w2 (set_h t2 (set_h t1 gr2)))
    as [[[]|e2|] gb]; simpl in *; try done.
  rewrite (sw_is_directed _ _ Hs).
  destruct (g_is_directed gb); simpl; [done|]. by apply Hpush.
Qed.

(** C6. Two traversals whose graphs differ in the weights only, and whose
    arrays are equal, are left by [run] from the same source with the same
    outcome, equal [visited] and distance arrays, and graphs that still
    differ in the weights only; [min_dist] and [is_visited] then answer the
    same for every key. *)
Theorem run_ignores_weights (b1 b2 : BFS) (source : pyval) :
  same_but_weights (g b1) (g b2) →
  visited b1 = visited b2 →
  min_dist_from_source b1 = min_dist_from_source b2 →
  let r1 := run source b1 in
  let r2 := run source b2 in
  r1.1 = r2.1
  ∧ visited r1.2 = visited r2.2
  ∧ min_dist_from_source r1.2 = min_dist_from_source r2.2
  ∧ same_but_weights (g r1.2) (g r2.2)
  ∧ ∀ target,
      (min_dist target r1.2).1 = (min_dist target r2.2).1
      ∧ (is_visited target r1.2).1 = (is_visited target r2.2).1.
Proof.
  intros Hsw Hv Hd.
  destruct b2 as [gr2 d2 v2]. simpl in Hsw, Hv, Hd. subst d2 v2.
  change (mkBFS gr2 (min_dist_from_source b1) (visited b1))
    with (set_g gr2 b1).
  intros r1 r2.
  assert (r1.1 = r2.1 ∧ r2.2 = set_g (g r2.2) r1.2
          ∧ same_but_weights (g r1.2) (g r2.2)) as (Hr & Hs & Hsw').
  { subst r1 r2. unfold run, bind, b_hash, g_hash. simpl g.
    rewrite <- (sw_h _ _ Hsw).
    destruct (Hash_hash source (g_h (g b1))) as [[sid|e|] t]; simpl;
      try (split; [done|split; [done|by apply set_h_same_but_weights]]).
    change (set_g (set_h t gr2) (set_g gr2 b1))
      with (set_g (set_h t gr2) (set_g (set_h t (g b1)) b1)).
    rewrite (_run_internal_weights sid (set_g (set_h t (g b1)) b1)); cycle 1.
    { simpl. symmetry. apply Hsw. }
    simpl. rewrite _run_internal_g. simpl.
    split; [done|]. split; [done|]. by apply set_h_same_but_weights. }
  rewrite Hs. simpl. split; [done|]. split; [done|]. split; [done|].
  split; [done|].
  intros target. unfold min_dist, is_visited, bind, b_hash, g_hash. simpl.
  rewrite <- (sw_h _ _ Hsw').
  by destruct (Hash_hash target (g_h (g r1.2))) as [[tid|e|] t].
Qed.

Lemma run_ignores_weights_witness :
  let gr1 := (add_edge (PInt 0) (PInt 1) 5 (Graph_init 5 true)).2 in
  let gr2 := (add_edge (PInt 0) (PInt 1) 9 (Graph_init 5 true)).2 in
  same_but_weights gr1 gr2
  ∧ visited (BFS_init gr1) = visited (BFS_init gr2)
  ∧ min_dist_from_source (BFS_init gr1) = min_dist_from_source (BFS_init gr2)
  ∧ (run (PInt 0) (BFS_init gr1)).1 = (run (PInt 0) (BFS_init gr2)).1
  ∧ (min_dist (PInt 1) (run (PInt 0) (BFS_init gr1)).2).1 = Ok 1
  ∧ (min_dist (PInt 1) (run (PInt 0) (BFS_init gr2)).2).1 = Ok 1.
Proof.
  intros gr1 gr2.
  assert (Hsw : same_but_weights gr1 gr2) by (split; reflexivity).
  assert (Hv : visited (BFS_init gr1) = visited (BFS_init gr2))
    by reflexivity.
  assert (Hd : min_dist_from_source (BFS_init gr1)
               = min_dist_from_source (BFS_init gr2)) by reflexivity.
  split; [exact Hsw|]. split; [exact Hv|]. split; [exact Hd|].
  destruct (run_ignores_weights (BFS_init gr1) (BFS_init gr2) (PInt 0)
              Hsw Hv Hd) as (Hr & _ & _ & _ & Hq).
  split; [exact Hr|].
  destruct (Hq (PInt 1)) as [Hm _].
  split; [reflexivity|]. rewrite <- Hm. reflexivity.
Defined.

Lemma run_at_capacity (k : nat) (n : Z) (d : bool) :
  Z.of_nat k = 5000000 →
  let b := BFS_init (self_loops k (Graph_init n d)) in
  (run (PInt 5000000) b).1 = Raise IndexError
  ∧ visited (run (PInt 5000000) b).2 = visited b
  ∧ min_dist_from_source (run (PInt 5000000) b).2 = min_dist_from_source b.
Proof.
  intros Hk b.
  destruct (self_loops_index k n d) as (Hwf & Hd & Hs & Hl); [lia|].
  set (gr := self_loops k (Graph_init n d)) in *.
  assert (Hash_hash (PInt 5000000) (g_h gr)
          = (Ok 5000000, <[(5000000, 0, 0) := 5000000]> (g_h gr))) as E.
  { unfold Hash_hash. simpl. rewrite hash_store_eq, Hl, Hs, Hk.
    case_decide; [lia|done]. }
  unfold run, bind. rewrite (b_hash_Ok _ b 5000000 _ E).
  unfold _run_internal, bind, set_visited. simpl.
  rewrite pl_set_above; [done|lia|].
  simpl. rewrite (wf_N _ Hwf). lia.
Qed.

(** At capacity: the source is the 5,000,001st key, [run] raises
    [IndexError] and the arrays are as before. *)
Example run_source_beyond_array :
  let b := BFS_init (full_store 0 true) in
  (run (PInt 5000000) b).1 = Raise IndexError
  ∧ visited (run (PInt 5000000) b).2 = visited b
  ∧ min_dist_from_source (run (PInt 5000000) b).2 = min_dist_from_source b.
Proof.
  exact (run_at_capacity (Z.to_nat 5000000) 0 true
           (Z2Nat.id 5000000 (Z.lt_le_incl 0 5000000 eq_refl))).
Qed.

(** ** The scenarios of [test_graphx.py], evaluated *)

Example test_hash_consistency :
  let t1 := (Hash_hash (PInt 5) Hash_init).2 in
  let t2 := (Hash_hash (PTuple [5; 0; 0]) t1).2 in
  let t3 := (Hash_hash (PTuple [5; 10]) t2).2 in
  (Hash_hash (PInt 5) Hash_init).1 = (Hash_hash (PTuple [5; 0; 0]) t1).1
  ∧ (Hash_hash (PTuple [5; 10]) t2).1 = (Hash_hash (PTuple [5; 10; 0]) t3).1.
Proof. vm_compute. done. Qed.

Example test_simple_path :
  (do_calls
     [CAddEdge (PInt 0) (PInt 1) 0; CAddEdge (PInt 1) (PInt 2) 0;
      CAddEdge (PInt 2) (PInt 3) 0; CRun (PInt 0);
      CMinDist (PInt 0); CMinDist (PInt 1); CMinDist (PInt 2);
      CMinDist (PInt 3); CMinDist (PInt 4); CIsVisited (PInt 4)]
     (BFS_init (Graph_init 5 true))).1
  = [Ok RNone; Ok RNone; Ok RNone; Ok RNone;
     Ok (RInt 0); Ok (RInt 1); Ok (RInt 2); Ok (RInt 3); Ok (RInt (-1));
     Ok (RBool false)].
Proof. vm_compute. done. Qed.

Example test_undirected_graph_bfs :
  (do_calls
     [CAddEdge (PInt 0) (PInt 1) 0; CAddEdge (PInt 1) (PInt 2) 0;
      CAddEdge (PInt 2) (PInt 3) 0; CRun (PInt 0); CMinDist (PInt 3);
      CClear; CRun (PInt 3); CMinDist (PInt 0)]
     (BFS_init (Graph_init 4 false))).1
  = [Ok RNone; Ok RNone; Ok RNone; Ok RNone; Ok (RInt 3);
     Ok RNone; Ok RNone; Ok (RInt 3)].
Proof. vm_compute. done. Qed.

Example test_cycle_graph :
  (do_calls
     [CAddEdge (PInt 0) (PInt 1) 0; CAddEdge (PInt 1) (PInt 2) 0;
      CAddEdge (PInt 2) (PInt 3) 0; CAddEdge (PInt 3) (PInt 1) 0;
      CRun (PInt 0); CMinDist (PInt 1); CMinDist (PInt 2); CMinDist (PInt 3)]
     (BFS_init (Graph_init 4 true))).1
  = [Ok RNone; Ok RNone; Ok RNone; Ok RNone; Ok RNone;
     Ok (RInt 1); Ok (RInt 2); Ok (RInt 3)].
Proof. vm_compute. done. Qed.

Example test_tuple_nodes :
  (do_calls
     [CAddEdge (PTuple [0; 0]) (PTuple [1; 1]) 0;
      CAddEdge (PTuple [1; 1]) (PTuple [2; 2]) 0;
      CRun (PTuple [0; 0]); CMinDist (PTuple [0; 0]);
      CMinDist (PTuple [1; 1]); CMinDist (PTuple [2; 2])]
     (BFS_init (Graph_init 10 true))).1
  = [Ok RNone; Ok RNone; Ok RNone; Ok (RInt 0); Ok (RInt 1); Ok (RInt 2)].
Proof. vm_compute. done. Qed.

Example test_complete_workflow :
  (do_calls
     [CAddEdge (PInt 0) (PInt 1) 1; CAddEdge (PInt 0) (PInt 2) 2;
      CAddEdge (PInt 1) (PInt 3) 3; CAddEdge (PInt 2) (PInt 3) 4;
      CAddEdge (PInt 3) (PInt 4) 5; CRun (PInt 0);
      CMinDist (PInt 4); CIsVisited (PInt 3); CIsVisited (PInt 5)]
     (BFS_init (Graph_init 6 false))).1
  = [Ok RNone; Ok RNone; Ok RNone; Ok RNone; Ok RNone; Ok RNone;
     Ok (RInt 3); Ok (RBool true); Ok (RBool false)].
Proof. vm_compute. done. Qed.


(** * Further properties of the code *)

(** ** [Hash.hash] *)

Lemma Hash_hash_Ok_lookup (x : pyval) (t t' : Hash) (i : Z) :
  Hash_hash x t = (Ok i, t') →
  ∃ key, hash_key x = inr key ∧ t' !! key = Some i ∧ t ⊆ t'
         ∧ (t !! key = None → i = Z.of_nat (size t)).
Proof.
  unfold Hash_hash. destruct (hash_key x) as [e|key]; [done|].
  rewrite hash_store_eq. intros E. exists key. split; [done|].
  destruct (t !! key) as [i'|] eqn:Ek; simplify_eq.
  - done.
  - split; [by rewrite lookup_insert_eq|].
    split; [by apply insert_subseteq|done].
Qed.


(** X2. On an index built by [hash] calls, two keys get the same id
    exactly when they have the same normal form: distinct nodes never
    collide. *)
Theorem same_id_iff_same_normal_form (k1 k2 : NodeKey) (t t1 t2 : Hash)
    (i1 i2 : Z) :
  hash_wf t →
  Hash_hash (key_val k1) t = (Ok i1, t1) →
  Hash_hash (key_val k2) t1 = (Ok i2, t2) →
  (i1 = i2 ↔ normalize k1 = normalize k2).
Proof.
  intros Hwf E1 E2.
  destruct (Hash_hash_Ok_range _ _ _ _ Hwf E1) as [_ Hwf1].
  destruct (Hash_hash_Ok_range _ _ _ _ Hwf1 E2) as [_ Hwf2].
  apply Hash_hash_Ok_lookup in E1 as (key1 & Hk1 & Hl1 & _ & _).
  apply Hash_hash_Ok_lookup in E2 as (key2 & Hk2 & Hl2 & Hsub & _).
  rewrite hash_key_key_val in Hk1, Hk2. simplify_eq.
  assert (t2 !! normalize k1 = Some i1) as Hl1'
    by by eapply lookup_weaken.
  split.
  - intros ->. by apply (hash_wf_inj _ Hwf2) with i2.
  - intros Heq. rewrite Heq in Hl1'. congruence.
Qed.

Lemma same_id_iff_same_normal_form_witness :
  hash_wf Hash_init
  ∧ Hash_hash (key_val (Pair 3 4)) Hash_init = (Ok 0, {[ (3, 4, 0) := 0 ]})
  ∧ Hash_hash (key_val (Triple 3 4 0)) {[ (3, 4, 0) := 0 ]}
    = (Ok 0, {[ (3, 4, 0) := 0 ]})
  ∧ (0 = 0 ↔ normalize (Pair 3 4) = normalize (Triple 3 4 0)).
Proof.
  assert (E1 : Hash_hash (key_val (Pair 3 4)) Hash_init
               = (Ok 0, {[ (3, 4, 0) := 0 ]})) by reflexivity.
  assert (E2 : Hash_hash (key_val (Triple 3 4 0)) {[ (3, 4, 0) := 0 ]}
               = (Ok 0, {[ (3, 4, 0) := 0 ]})) by reflexivity.
  split; [apply hash_wf_empty|]. split; [exact E1|]. split; [exact E2|].
  exact (same_id_iff_same_normal_form (Pair 3 4) (Triple 3 4 0) _ _ _ 0 0
           hash_wf_empty E1 E2).
Defined.

(** X3. Ids are handed out in first-seen order: keys with pairwise
    different normal forms, none of them in the index yet, get the
    consecutive ids [size], [size + 1], ... in the order of the calls. *)
Theorem ids_in_first_seen_order (ks : list NodeKey) (t : Hash) :
  NoDup (normalize <$> ks) →
  (∀ k, k ∈ ks → t !! normalize k = None) →
  (hash_all (key_val <$> ks) t).1
  = (λ i : nat, Ok (Z.of_nat (size t + i))) <$> seq 0 (length ks)
  ∧ size (hash_all (key_val <$> ks) t).2 = (size t + length ks)%nat.
Proof.
  revert t. induction ks as [|k ks IH]; intros t Hnd Hnew.
  { simpl. split; [done|lia]. }
  rewrite fmap_cons in Hnd. apply NoDup_cons in Hnd as [Hk Hnd].
  rewrite fmap_cons. cbn [hash_all length seq].
  rewrite Hash_hash_key_val, hash_store_eq, (Hnew k) by by left.
  destruct (IH (<[normalize k := Z.of_nat (size t)]> t) Hnd) as [IH1 IH2].
  { intros k' Hk'. rewrite lookup_insert_ne; [apply Hnew; by right|].
    intros Heq. apply Hk. rewrite Heq. apply list_elem_of_fmap.
    by exists k'. }
  rewrite map_size_insert_None in IH1, IH2 by (apply Hnew; by left).
  destruct (hash_all (key_val <$> ks) _) as [rs t'']. cbn [fst snd] in *.
  split; [|lia]. rewrite IH1, fmap_cons, Nat.add_0_r. f_equal.
  rewrite <- fmap_S_seq, <- list_fmap_compose.
  apply list_fmap_ext. intros _ i _. simpl. do 2 f_equal. lia.
Qed.

Lemma ids_in_first_seen_order_witness :
  NoDup (normalize <$> [Pair 7 7; Scalar 2; Triple 1 0 1])
  ∧ (∀ k, k ∈ [Pair 7 7; Scalar 2; Triple 1 0 1] →
          ({[ (9, 9, 9) := 0 ]} : Hash) !! normalize k = None)
  ∧ (hash_all (key_val <$> [Pair 7 7; Scalar 2; Triple 1 0 1])
       {[ (9, 9, 9) := 0 ]}).1 = [Ok 1; Ok 2; Ok 3].
Proof.
  assert (Hnd : NoDup (normalize <$> [Pair 7 7; Scalar 2; Triple 1 0 1])).
  { by apply (bool_decide_unpack _). }
  assert (Hnew : ∀ k, k ∈ [Pair 7 7; Scalar 2; Triple 1 0 1] →
                      ({[ (9, 9, 9) := 0 ]} : Hash) !! normalize k = None).
  { intros k Hk. set_unfold. by destruct Hk as [->|[->|[->|[]]]]. }
  split; [exact Hnd|]. split; [exact Hnew|].
  exact (proj1 (ids_in_first_seen_order _ _ Hnd Hnew)).
Defined.

(** ** [Graph.add_edge] *)

Lemma store_extends_refl (gr : Graph) : store_extends gr gr.
Proof. by split. Qed.

Lemma store_extends_trans (gr1 gr2 gr3 : Graph) :
  store_extends gr1 gr2 → store_extends gr2 gr3 → store_extends gr1 gr3.
Proof.
  intros [] []. split; [congruence..| |].
  - by trans (g_h gr2).
  - intros j. by trans (pl_at (g_adj gr2) j).
Qed.

Lemma Hash_hash_subseteq (x : pyval) (t : Hash) : t ⊆ (Hash_hash x t).2.
Proof.
  unfold Hash_hash. destruct (hash_key x) as [e|key]; [done|].
  rewrite hash_store_eq. destruct (t !! key) eqn:E; simpl; [done|].
  by apply insert_subseteq.
Qed.

Lemma g_hash_extends (x : pyval) (gr : Graph) :
  store_extends gr (g_hash x gr).2 ∧ g_adj (g_hash x gr).2 = g_adj gr.
Proof.
  unfold g_hash. pose proof (Hash_hash_subseteq x (g_h gr)) as Hsub.
  destruct (Hash_hash x (g_h gr)) as [r t]. simpl in *. by split.
Qed.

Lemma _add_edge_weighted_undirected_extends (u v w : Z) (gr : Graph) :
  store_extends gr (_add_edge_weighted_undirected u v w gr).2.
Proof.
  unfold _add_edge_weighted_undirected.
  destruct (pl_index (g_adj gr) u) as [j|]; simpl;
    [|apply store_extends_refl].
  split; simpl; try done.
  intros i. rewrite pl_at_adj_push. case_decide; [|done].
  by apply prefix_app_r.
Qed.

(** X4. [add_edge] only adds: whatever its arguments and whatever its
    outcome, the flags and sizes of the store are as before, every binding
    of the index is kept, and every adjacency list is the list it was with
    zero or more entries appended: no entry is removed, changed or
    reordered. *)
Theorem add_edge_only_grows (gr : Graph) (u v : pyval) (w : Z) :
  store_extends gr (add_edge u v w gr).2.
Proof.
  unfold add_edge, bind.
  destruct (g_hash_extends u gr) as [H1 _].
  destruct (g_hash u gr) as [[ida|e|] gr1]; simpl in *; try done.
  destruct (g_hash_extends v gr1) as [H2 _].
  destruct (g_hash v gr1) as [[idb|e|] gr2]; simpl in *;
    try by eapply store_extends_trans.
  unfold _add_edge_internal, bind.
  pose proof (_add_edge_weighted_undirected_extends ida idb w gr2) as H3.
  destruct (_add_edge_weighted_undirected ida idb w gr2)
    as [[[]|e|] gr3]; simpl in *;
    try by (eapply store_extends_trans; [|exact H3];
            eapply store_extends_trans).
  assert (store_extends gr gr3) as H4.
  { eapply store_extends_trans; [|exact H3]. by eapply store_extends_trans. }
  destruct (g_is_directed gr3); simpl; [done|].
  eapply store_extends_trans; [exact H4|].
  apply _add_edge_weighted_undirected_extends.
Qed.

Lemma elem_of_adj_push (adj : pylist adjlist) (j y : Z) (e p : Z * Z) :
  p ∈ pl_at (adj_push j e adj) y ↔ p ∈ pl_at adj y ∨ (j = y ∧ p = e).
Proof.
  rewrite pl_at_adj_push. case_decide as Hj.
  - rewrite elem_of_app, list_elem_of_singleton. tauto.
  - unfold not in Hj. tauto.
Qed.

(** X5. On an undirected store, adjacency stays symmetric: if every entry
    [(v, w)] in the list of [u] has its mirror [(u, w)] in the list of [v],
    this is still so after an [add_edge] that does not raise
    [IndexError]. *)
Theorem add_edge_keeps_symmetry (gr : Graph) (u v : pyval) (w : Z) :
  graph_wf gr →
  g_is_directed gr = false →
  symmetric_adj (g_adj gr) →
  (add_edge u v w gr).1 ≠ Raise IndexError →
  symmetric_adj (g_adj (add_edge u v w gr).2).
Proof.
  intros Hwf Hd Hsym Hok.
  destruct (Hash_hash u (g_h gr)) as [[ida|e|] t1] eqn:E1; cycle 1.
  { unfold add_edge, bind, g_hash. by rewrite E1. }
  { unfold add_edge, bind, g_hash. by rewrite E1. }
  destruct (Hash_hash_Ok_range _ _ _ _ (wf_hash _ Hwf) E1) as [Ra Hwf1].
  destruct (Hash_hash v t1) as [[idb|e|] t2] eqn:E2; cycle 1.
  { unfold add_edge, bind, g_hash. rewrite E1. simpl. by rewrite E2. }
  { unfold add_edge, bind, g_hash. rewrite E1. simpl. by rewrite E2. }
  destruct (Hash_hash_Ok_range _ _ _ _ Hwf1 E2) as [Rb _].
  rewrite (add_edge_cases gr u v w ida idb t1 t2) in Hok |- *
    by (done || lia).
  cbv zeta in Hok |- *. rewrite Hd in Hok |- *.
  destruct (decide (ida < pl_len (g_adj gr))); [|done].
  destruct (decide (idb < pl_len (g_adj gr))); [|done]. simpl.
  intros x y w'. rewrite !elem_of_adj_push. simpl.
  intros [[Hin|[-> [= -> ->]]]|[-> [= -> ->]]].
  - left. left. by apply Hsym.
  - right. done.
  - left. right. done.
Qed.

Lemma add_edge_keeps_symmetry_witness :
  let gr := (add_edge (PInt 0) (PInt 1) 4 (Graph_init 3 false)).2 in
  graph_wf gr
  ∧ g_is_directed gr = false
  ∧ symmetric_adj (g_adj gr)
  ∧ (add_edge (PInt 1) (PInt 2) 6 gr).1 ≠ Raise IndexError
  ∧ symmetric_adj (g_adj (add_edge (PInt 1) (PInt 2) 6 gr).2).
Proof.
  intros gr.
  assert (Hwf0 : graph_wf (Graph_init 3 false)) by apply Graph_init_wf.
  assert (Hsym0 : symmetric_adj (g_adj (Graph_init 3 false))).
  { intros x y w'. simpl. rewrite pl_at_new. by intros ?%elem_of_nil. }
  assert (Hwf : graph_wf gr) by by apply add_edge_wf.
  assert (Hd : g_is_directed gr = false) by reflexivity.
  assert (Hsym : symmetric_adj (g_adj gr)).
  { apply (add_edge_keeps_symmetry (Graph_init 3 false) (PInt 0) (PInt 1) 4
             Hwf0 eq_refl Hsym0). by vm_compute. }
  assert (Hok : (add_edge (PInt 1) (PInt 2) 6 gr).1 ≠ Raise IndexError)
    by by vm_compute.
  split; [exact Hwf|]. split; [exact Hd|]. split; [exact Hsym|].
  split; [exact Hok|].
  exact (add_edge_keeps_symmetry gr (PInt 1) (PInt 2) 6 Hwf Hd Hsym Hok).
Defined.

(** ** The three classes together *)

Lemma clear_wf (b : BFS) : bfs_wf b → bfs_wf (clear b).
Proof.
  intros []. split; simpl; try done.
  - by rewrite (wf_N _ bwf_graph0).
  - by rewrite (wf_N _ bwf_graph0).
Qed.

Lemma do_call_wf (c : call) (b : BFS) : bfs_wf b → bfs_wf (do_call c b).2.
Proof.
  intros Hb. destruct c as [u v w|s|t|t|]; simpl; unfold bind.
  - unfold b_add_edge.
    pose proof (add_edge_wf u v w (g b) (bwf_graph _ Hb)) as Hg.
    destruct Hb. destruct (add_edge u v w (g b)) as [[[]|e|] gr];
      simpl in *; by split.
  - pose proof (run_wf s b Hb) as Hr.
    by destruct (run s b) as [[[]|e|] b'].
  - unfold min_dist, bind, _min_dist_internal, get_dist.
    pose proof (b_hash_wf t b Hb) as Hh.
    destruct (b_hash t b) as [[i|e|] b']; simpl in *; try done.
    by destruct (pl_get (min_dist_from_source b') i).
  - unfold is_visited, bind, _is_visited_internal, get_visited.
    pose proof (b_hash_wf t b Hb) as Hh.
    destruct (b_hash t b) as [[i|e|] b']; simpl in *; try done.
    by destruct (pl_get (visited b') i).
  - by apply clear_wf.
Qed.

Lemma do_calls_wf (cs : list call) (b : BFS) :
  bfs_wf b → bfs_wf (do_calls cs b).2.
Proof.
  revert b. induction cs as [|c cs IH]; intros b Hb; simpl; [done|].
  pose proof (do_call_wf c b Hb) as Hc.
  destruct (do_call c b) as [r b']. simpl in Hc.
  specialize (IH b' Hc). by destruct (do_calls cs b').
Qed.

(** X6. Whatever sequence of [add_edge], [run], [min_dist], [is_visited]
    and [clear] calls is made on a new store and its traversal, raising
    calls included, the objects stay consistent: the index binds each key
    to one of the ids [0 .. size-1], each id once; the three arrays have
    5,000,000 cells and nothing is stored outside them; every neighbour in
    an adjacency list is an id of the index. *)
Theorem calls_keep_store_consistent (n : Z) (d : bool) (cs : list call) :
  let b := (do_calls cs (BFS_init (Graph_init n d))).2 in
  hash_wf (g_h (g b))
  ∧ pl_len (g_adj (g b)) = 5000000
  ∧ pl_len (visited b) = 5000000
  ∧ pl_len (min_dist_from_source b) = 5000000
  ∧ pl_bounded (g_adj (g b))
  ∧ pl_bounded (visited b)
  ∧ pl_bounded (min_dist_from_source b)
  ∧ ∀ j v w, (v, w) ∈ pl_at (g_adj (g b)) j →
             0 ≤ v < Z.of_nat (size (g_h (g b))).
Proof.
  intros b.
  assert (bfs_wf b) as [Hg Hlv Hld Hbv Hbd].
  { apply do_calls_wf, BFS_init_wf, Graph_init_wf. }
  destruct Hg as [HN Hlen Hfill Hh Hcells Htargets].
  split; [exact Hh|]. split; [by rewrite Hlen|].
  split; [done|]. split; [done|]. split; [exact Hcells|].
  split; [exact Hbv|]. split; [exact Hbd|]. exact Htargets.
Qed.

Lemma Hash_hash_expected (x : pyval) (t : Hash) :
  match (Hash_hash x t).1 with
  | Ok _ => True
  | Raise e => e = ValueError ∨ e = TypeError
  | OutOfFuel => False
  end.
Proof.
  unfold Hash_hash. destruct (hash_key x) as [e|key] eqn:Hk.
  - destruct x as [z|xs|]; simpl in Hk; [done| |simplify_eq; by right].
    destruct xs as [|a [|b [|c [|d xs]]]]; simplify_eq; by left.
  - rewrite hash_store_eq. by destruct (t !! key).
Qed.

Lemma b_hash_expected (x : pyval) (b : BFS) :
  match (b_hash x b).1 with
  | Ok _ => True
  | Raise e => e = ValueError ∨ e = TypeError
  | OutOfFuel => False
  end.
Proof.
  unfold b_hash, g_hash. pose proof (Hash_hash_expected x (g_h (g b))).
  by destruct (Hash_hash x (g_h (g b))) as [[i|e|] t].
Qed.

Lemma pl_get_raises {A} (l : pylist A) (i : Z) (e : exn) :
  pl_get l i = Raise e → e = IndexError.
Proof. unfold pl_get. destruct (pl_index l i); congruence. Qed.

Lemma pl_set_raises {A} (l : pylist A) (i : Z) (x : A) (e : exn) :
  pl_set l i x = Raise e → e = IndexError.
Proof. unfold pl_set. destruct (pl_index l i); congruence. Qed.

Lemma visit_neighbours_raises (cur : Z) (l : adjlist) (q : list Z) (b : BFS)
    (e : exn) :
  (visit_neighbours cur l q b).1 = Raise e → e = IndexError.
Proof.
  revert q b. induction l as [|[v w] l IH]; intros q b; simpl; [done|].
  unfold bind, get_visited.
  destruct (pl_get (visited b) v) as [[|]|e'|] eqn:E1; simpl; try done;
    [apply IH| |intros [= <-]; by eapply pl_get_raises].
  unfold set_visited.
  destruct (pl_set (visited b) v true) as [vis'|e'|] eqn:E2; simpl;
    try done; [|intros [= <-]; by eapply pl_set_raises].
  unfold get_dist. simpl.
  destruct (pl_get (min_dist_from_source b) cur) as [dc|e'|] eqn:E3; simpl;
    try done; [|intros [= <-]; by eapply pl_get_raises].
  unfold set_dist. simpl.
  destruct (pl_set (min_dist_from_source b) v (dc + 1)) as [dist'|e'|] eqn:E4;
    simpl; try done; [apply IH|intros [= <-]; by eapply pl_set_raises].
Qed.

Lemma bfs_loop_raises (fuel : nat) (q : list Z) (b : BFS) (e : exn) :
  (bfs_loop fuel q b).1 = Raise e → e = IndexError.
Proof.
  revert q b. induction fuel as [|fuel IH]; intros [|cur q] b; try done.
  unfold bfs_loop; fold bfs_loop. unfold bind, get_adj.
  destruct (pl_get (g_adj (g b)) cur) as [l|e'|] eqn:E1; simpl; try done;
    [|intros [= <-]; by eapply pl_get_raises].
  pose proof (visit_neighbours_raises cur l q b) as Hv.
  destruct (visit_neighbours cur l q b) as [[q'|e'|] b']; simpl in *;
    try done; [apply IH|intros [= <-]; by apply Hv].
Qed.

Lemma _run_internal_raises (source : Z) (b : BFS) (e : exn) :
  (_run_internal source b).1 = Raise e → e = IndexError.
Proof.
  unfold _run_internal, bind, set_visited.
  destruct (pl_set (visited b) source true) as [vis'|e'|] eqn:E1; simpl;
    try done; [|intros [= <-]; by eapply pl_set_raises].
  unfold set_dist. simpl.
  destruct (pl_set (min_dist_from_source b) source 0) as [dist'|e'|] eqn:E2;
    simpl; try done; [|intros [= <-]; by eapply pl_set_raises].
  apply bfs_loop_raises.
Qed.

Lemma add_edge_expected (u v : pyval) (w : Z) (gr : Graph) :
  expected (add_edge u v w gr).1.
Proof.
  unfold add_edge, bind, g_hash.
  pose proof (Hash_hash_expected u (g_h gr)) as H1.
  destruct (Hash_hash u (g_h gr)) as [[ida|e|] t1]; simpl in *;
    [|tauto|done].
  pose proof (Hash_hash_expected v t1) as H2.
  destruct (Hash_hash v t1) as [[idb|e|] t2]; simpl in *; [|tauto|done].
  unfold _add_edge_internal, bind, _add_edge_weighted_undirected. simpl.
  destruct (pl_index (g_adj gr) ida) as [ja|]; simpl; [|tauto].
  destruct (g_is_directed gr); simpl; [done|].
  destruct (pl_index _ idb) as [jb|]; simpl; [done|tauto].
Qed.

(** X7. A call ends in one of four ways: it returns, or it raises
    [ValueError] or [TypeError] (a key of a wrong shape) or [IndexError]
    (an id beyond the arrays).  In particular [run] always ends: the
    [while] loop stops by itself in every state of the arrays, stale ones
    included, and [KeyError] is never raised. *)
Theorem call_outcomes (c : call) (b : BFS) : expected (do_call c b).1.
Proof.
  destruct c as [u v w|s|t|t|]; simpl; unfold bind; [| | | |done].
  - unfold b_add_edge. pose proof (add_edge_expected u v w (g b)) as H.
    by destruct (add_edge u v w (g b)) as [[[]|e|] gr].
  - unfold run, bind. pose proof (b_hash_expected s b) as H.
    destruct (b_hash s b) as [[sid|e|] b1]; simpl in *; [|tauto|done].
    pose proof (_run_internal_terminates sid b1) as Ht.
    pose proof (_run_internal_raises sid b1) as Hr.
    destruct (_run_internal sid b1) as [[[]|e|] b2]; simpl in *;
      [done| |done].
    right. right. by apply Hr.
  - unfold min_dist, bind, _min_dist_internal, get_dist.
    pose proof (b_hash_expected t b) as H.
    destruct (b_hash t b) as [[i|e|] b1]; simpl in *; [|tauto|done].
    destruct (pl_get (min_dist_from_source b1) i) as [x|e|] eqn:E; simpl;
      [done| |by apply pl_get_not_OutOfFuel in E].
    right. right. by eapply pl_get_raises.
  - unfold is_visited, bind, _is_visited_internal, get_visited.
    pose proof (b_hash_expected t b) as H.
    destruct (b_hash t b) as [[i|e|] b1]; simpl in *; [|tauto|done].
    destruct (pl_get (visited b1) i) as [x|e|] eqn:E; simpl;
      [done| |by apply pl_get_not_OutOfFuel in E].
    right. right. by eapply pl_get_raises.
Qed.

(** X8. The queries are read-only but for the index: [min_dist] and
    [is_visited] leave the two arrays and the adjacency lists as they are,
    both leave the same state behind, and the index keeps its bindings and
    gains at most one, for a key it had not seen. *)
Theorem queries_only_touch_index (target : pyval) (b : BFS) :
  let b' := (min_dist target b).2 in
  (is_visited target b).2 = b'
  ∧ visited b' = visited b
  ∧ min_dist_from_source b' = min_dist_from_source b
  ∧ g_adj (g b') = g_adj (g b)
  ∧ store_extends (g b) (g b')
  ∧ (size (g_h (g b')) ≤ S (size (g_h (g b))))%nat.
Proof.
  unfold min_dist, is_visited, bind, b_hash, g_hash,
    _min_dist_internal, _is_visited_internal, get_dist, get_visited.
  pose proof (Hash_hash_subseteq target (g_h (g b))) as Hsub.
  assert (size (Hash_hash target (g_h (g b))).2 ≤ S (size (g_h (g b))))%nat
    as Hsize.
  { unfold Hash_hash. destruct (hash_key target) as [e|key]; simpl; [lia|].
    rewrite hash_store_eq. destruct (g_h (g b) !! key) eqn:E; simpl; [lia|].
    by rewrite map_size_insert_None. }
  destruct (Hash_hash target (g_h (g b))) as [[i|e|] t]; simpl in *;
    repeat split; done.
Qed.

Lemma queries_frame_aux (x : pyval) (b : BFS) :
  let b1 := (b_hash x b).2 in
  g_adj (g b1) = g_adj (g b)
  ∧ store_extends (g b) (g b1)
  ∧ (size (g_h (g b1)) ≤ S (size (g_h (g b))))%nat
  ∧ visited b1 = visited b
  ∧ min_dist_from_source b1 = min_dist_from_source b.
Proof.
  unfold b_hash, g_hash.
  pose proof (Hash_hash_subseteq x (g_h (g b))) as Hsub.
  assert (size (Hash_hash x (g_h (g b))).2 ≤ S (size (g_h (g b))))%nat
    as Hsize.
  { unfold Hash_hash. destruct (hash_key x) as [e|key]; simpl; [lia|].
    rewrite hash_store_eq. destruct (g_h (g b) !! key) eqn:E; simpl; [lia|].
    by rewrite map_size_insert_None. }
  destruct (Hash_hash x (g_h (g b))) as [r t]; simpl in *.
  repeat split; done.
Qed.

(** X9. [run] never touches the adjacency lists, the flags or the sizes:
    in any state and whatever its outcome, the graph it leaves differs
    from the one it found by the index entry of the source at most, and
    the two arrays keep their lengths. *)
Theorem run_leaves_graph (source : pyval) (b : BFS) :
  let b' := (run source b).2 in
  g_adj (g b') = g_adj (g b)
  ∧ store_extends (g b) (g b')
  ∧ (size (g_h (g b')) ≤ S (size (g_h (g b))))%nat
  ∧ pl_len (visited b') = pl_len (visited b)
  ∧ pl_len (min_dist_from_source b') = pl_len (min_dist_from_source b).
Proof.
  destruct (queries_frame_aux source b) as (Hadj & Hext & Hsize & Hv & Hd).
  unfold run, bind.
  destruct (b_hash source b) as [[sid|e|] b1]; simpl in *;
    [|by rewrite Hv, Hd..].
  assert (g (_run_internal sid b1).2 = g b1
          ∧ pl_len (visited (_run_internal sid b1).2) = pl_len (visited b1)
          ∧ pl_len (min_dist_from_source (_run_internal sid b1).2)
            = pl_len (min_dist_from_source b1)) as (Hg & Hlv & Hld).
  { apply (_run_internal_preserves
             (λ b', g b' = g b1
                    ∧ pl_len (visited b') = pl_len (visited b1)
                    ∧ pl_len (min_dist_from_source b')
                      = pl_len (min_dist_from_source b1))); [| |done].
    - intros i x b0 (? & ? & ?). unfold set_visited, pl_set.
      by destruct (pl_index (visited b0) i).
    - intros i x b0 (? & ? & ?). unfold set_dist, pl_set.
      by destruct (pl_index (min_dist_from_source b0) i). }
  rewrite Hg, Hlv, Hld, Hv, Hd. done.
Qed.


(** ** [BFS.run] *)

Lemma pl_index_len {A B} (l1 : pylist A) (l2 : pylist B) (i : Z) :
  pl_len l1 = pl_len l2 → pl_index l1 i = pl_index l2 i.
Proof. intros H. unfold pl_index. by rewrite H. Qed.

Lemma visit_neighbours_keeps (cur : Z) (l : adjlist) (q : list Z)
    (b0 b : BFS) :
  pl_len (visited b0) = pl_len (min_dist_from_source b0) →
  keeps_marks b0 b → keeps_marks b0 (visit_neighbours cur l q b).2.
Proof.
  intros Hlen. revert q b.
  induction l as [|[v w] l IH]; intros q b Hk; simpl; [done|].
  unfold bind, get_visited, pl_get.
  destruct (pl_index (visited b) v) as [jv|] eqn:Ejv; simpl; [|done].
  destruct (pl_at (visited b) jv) eqn:Ev; simpl; [by apply IH|].
  assert (∀ j, vis_at b0 j = true → jv ≠ j) as Hfresh.
  { intros j Hj ->. destruct (km_cells _ _ Hk j Hj) as [Hvj _].
    unfold vis_at in Hvj. congruence. }
  assert (keeps_marks b0
            (mkBFS (g b) (min_dist_from_source b)
               (pl_upd (visited b) jv true))) as Hk1.
  { destruct Hk as [Hv Hd Hc]. split; simpl; try done.
    intros j Hj. destruct (Hc j Hj) as [Hvj Hdj]. split; [|done].
    unfold vis_at in *. simpl. rewrite pl_at_upd.
    by destruct (decide (jv = j)). }
  unfold set_visited, pl_set. rewrite Ejv. simpl.
  unfold get_dist, pl_get. simpl.
  destruct (pl_index (min_dist_from_source b) cur) as [jc|]; simpl;
    [|done].
  unfold set_dist, pl_set. simpl.
  assert (pl_index (min_dist_from_source b) v = Some jv) as ->.
  { rewrite <- Ejv. apply pl_index_len.
    rewrite (km_len_d _ _ Hk), (km_len_v _ _ Hk). done. }
  simpl. apply IH.
  destruct Hk1 as [Hv Hd Hc]. split; simpl in *; try done.
  intros j Hj. destruct (Hc j Hj) as [Hvj Hdj]. split; [done|].
  unfold dist_at in *. simpl in *. rewrite pl_at_upd.
  destruct (decide (jv = j)) as [->|]; [by destruct (Hfresh j)|done].
Qed.

Lemma bfs_loop_keeps (fuel : nat) (q : list Z) (b0 b : BFS) :
  pl_len (visited b0) = pl_len (min_dist_from_source b0) →
  keeps_marks b0 b → keeps_marks b0 (bfs_loop fuel q b).2.
Proof.
  intros Hlen. revert q b.
  induction fuel as [|fuel IH]; intros [|cur q] b Hk; try done.
  unfold bfs_loop; fold bfs_loop. unfold bind, get_adj.
  destruct (pl_get (g_adj (g b)) cur) as [l|e|]; simpl; try done.
  pose proof (visit_neighbours_keeps cur l q b0 b Hlen Hk) as H1.
  destruct (visit_neighbours cur l q b) as [[q'|e|] b1]; simpl in *;
    try done.
  by apply IH.
Qed.

(** X10. A [run] without a [clear] before it keeps the old marks: the
    source is marked visited with distance 0, and every other cell that was
    visited when the call began is still visited afterwards, with the
    distance it had, whether or not it can be reached from the new
    source. *)
Theorem run_keeps_old_marks (source : pyval) (b : BFS) (sid : Z)
    (t1 : Hash) :
  pl_len (visited b) = pl_len (min_dist_from_source b) →
  Hash_hash source (g_h (g b)) = (Ok sid, t1) →
  0 ≤ sid < pl_len (visited b) →
  let b' := (run source b).2 in
  vis_at b' sid = true
  ∧ dist_at b' sid = 0
  ∧ ∀ j, vis_at b j = true → j ≠ sid →
         vis_at b' j = true ∧ dist_at b' j = dist_at b j.
Proof.
  intros Hlen E Hs. unfold run, bind.
  rewrite (b_hash_Ok source b sid t1 E). cbv zeta.
  unfold _run_internal, bind, set_visited. simpl.
  rewrite pl_set_in_range by done. simpl. unfold set_dist. simpl.
  rewrite pl_set_in_range by lia. simpl.
  set (b1 := mkBFS (set_h t1 (g b)) (pl_upd (min_dist_from_source b) sid 0)
               (pl_upd (visited b) sid true)).
  assert (keeps_marks b1 (bfs_loop (run_bound b1) [sid] b1).2) as [_ _ Hk].
  { apply bfs_loop_keeps; [done|]. by split. }
  assert (vis_at b1 sid = true ∧ dist_at b1 sid = 0) as [Hv1 Hd1].
  { unfold vis_at, dist_at, b1. simpl. rewrite !pl_at_upd.
    by destruct (decide (sid = sid)). }
  destruct (Hk sid Hv1) as [Hv Hd].
  split; [done|]. split; [congruence|].
  intros j Hj Hne.
  assert (vis_at b1 j = true ∧ dist_at b1 j = dist_at b j) as [Hvj Hdj].
  { unfold vis_at, dist_at, b1 in *. simpl. rewrite !pl_at_upd.
    by destruct (decide (sid = j)). }
  destruct (Hk j Hvj) as [Hv' Hd']. split; [done|congruence].
Qed.

Lemma run_keeps_old_marks_witness :
  let gr := (add_edge (PInt 1) (PInt 2) 0
               (add_edge (PInt 0) (PInt 1) 0 (Graph_init 3 true)).2).2 in
  let b := (run (PInt 0) (BFS_init gr)).2 in
  pl_len (visited b) = pl_len (min_dist_from_source b)
  ∧ Hash_hash (PInt 2) (g_h (g b)) = (Ok 2, g_h (g b))
  ∧ 0 ≤ 2 < pl_len (visited b)
  ∧ vis_at b 1 = true
  ∧ pl_at (g_adj gr) 2 = []
  ∧ (min_dist (PInt 1) (run (PInt 2) b).2).1 = Ok 1
  ∧ vis_at (run (PInt 2) b).2 1 = true
  ∧ dist_at (run (PInt 2) b).2 1 = dist_at b 1.
Proof.
  intros gr b.
  assert (Hlen : pl_len (visited b) = pl_len (min_dist_from_source b))
    by (vm_compute; reflexivity).
  assert (E : Hash_hash (PInt 2) (g_h (g b)) = (Ok 2, g_h (g b)))
    by (vm_compute; reflexivity).
  assert (Hs : 0 ≤ 2 < pl_len (visited b))
    by (vm_compute; split; [intros [=]|reflexivity]).
  assert (Hv : vis_at b 1 = true) by (vm_compute; reflexivity).
  split; [exact Hlen|]. split; [exact E|]. split; [exact Hs|].
  split; [exact Hv|].
  split; [vm_compute; reflexivity|]. split; [vm_compute; reflexivity|].
  pose proof (run_keeps_old_marks (PInt 2) b 2 _ Hlen E Hs) as Hold.
  exact (proj2 (proj2 Hold) 1 Hv ltac:(lia)).
Defined.

(** [run] on a fresh traversal over a store within capacity returns, with
    the arrays in a state described by [bfs_done]. *)
Lemma run_fresh_done (gr : Graph) (source : pyval) (sid : Z) (t1 : Hash) :
  graph_wf gr →
  Hash_hash source (g_h gr) = (Ok sid, t1) →
  Z.of_nat (size t1) ≤ 5000000 →
  ∃ b', run source (BFS_init gr) = (Ok (), b')
        ∧ g b' = set_h t1 gr
        ∧ bfs_done (g_adj gr) sid b'
        ∧ 0 ≤ sid < 5000000
        ∧ pl_len (g_adj gr) = 5000000.
Proof.
  intros Hwf E1 Hcap.
  destruct (Hash_hash_Ok_range _ _ _ _ (wf_hash _ Hwf) E1) as [Rs Hwf1].
  pose proof (Hash_hash_size source (g_h gr)) as Hs1.
  rewrite E1 in Hs1. simpl in Hs1.
  assert (pl_len (g_adj gr) = 5000000) as Hlen.
  { rewrite (wf_len _ Hwf). apply Hwf. }
  destruct (_run_internal_done sid (set_g (set_h t1 gr) (BFS_init gr)))
    as (b' & Erun & Hdone & Hg).
  - simpl. rewrite (wf_N _ Hwf). by rewrite Hlen.
  - simpl. rewrite (wf_N _ Hwf). by rewrite Hlen.
  - intros v. apply pl_at_new.
  - intros v. apply pl_at_new.
  - simpl. by apply graph_wf_edges_in_range with t1.
  - simpl. lia.
  - exists b'. split; [|split; [done|split; [done|split; [lia|done]]]].
    unfold run, bind.
    by rewrite (b_hash_Ok _ (BFS_init gr) sid t1).
Qed.

Lemma bfs_done_reads (adj : pylist adjlist) (s : Z) (b : BFS) (v : Z) :
  bfs_done adj s b → 0 ≤ v < pl_len adj →
  _is_visited_internal v b = (Ok (vis_at b v), b)
  ∧ _min_dist_internal v b = (Ok (dist_at b v), b).
Proof.
  intros Hdone Hv.
  unfold _is_visited_internal, _min_dist_internal, get_visited, get_dist.
  rewrite !pl_get_in_range; [done|..].
  - by rewrite (bd_len_d _ _ _ Hdone).
  - by rewrite (bd_len_v _ _ _ Hdone).
Qed.

(** X11. After [run] on a fresh traversal (ids within the arrays) the two
    arrays agree with each other and with the edges: the source has
    distance 0; a cell is visited exactly when its distance is not [-1],
    and then the distance is not negative; along every adjacency entry
    from a visited [u] to [x], [x] is visited and at most one step
    further; and every visited id other than the source has a visited
    neighbour-of, exactly one step nearer, from which it was reached. *)
Theorem run_distances_consistent (gr : Graph) (source : NodeKey) (sid : Z)
    (t1 : Hash) :
  graph_wf gr →
  Hash_hash (key_val source) (g_h gr) = (Ok sid, t1) →
  Z.of_nat (size t1) ≤ 5000000 →
  ∃ b', run (key_val source) (BFS_init gr) = (Ok (), b')
    ∧ (∀ v, 0 ≤ v < 5000000 →
         _is_visited_internal v b' = (Ok (vis_at b' v), b')
         ∧ _min_dist_internal v b' = (Ok (dist_at b' v), b'))
    ∧ (∀ v, vis_at b' v = true → 0 ≤ v < 5000000)
    ∧ vis_at b' sid = true
    ∧ dist_at b' sid = 0
    ∧ (∀ v, if vis_at b' v then 0 ≤ dist_at b' v else dist_at b' v = -1)
    ∧ (∀ u x, edge (g_adj gr) u x → vis_at b' u = true →
         vis_at b' x = true ∧ dist_at b' x ≤ dist_at b' u + 1)
    ∧ (∀ v, vis_at b' v = true → v ≠ sid →
         ∃ u, edge (g_adj gr) u v ∧ vis_at b' u = true
              ∧ dist_at b' v = dist_at b' u + 1).
Proof.
  intros Hwf E1 Hcap.
  destruct (run_fresh_done gr _ sid t1 Hwf E1 Hcap)
    as (b' & Hrun & Hg & Hdone & Hs & Hlen).
  exists b'. split; [done|].
  split; [|split; [|split; [|split; [|split; [|split]]]]].
  - intros v Hv. apply (bfs_done_reads (g_adj gr) sid); [done|].
    by rewrite Hlen.
  - intros v Hv. rewrite <- Hlen. by apply (bd_range _ _ _ Hdone).
  - apply (bd_source _ _ _ Hdone).
  - apply (bd_source _ _ _ Hdone).
  - intros v. destruct (vis_at b' v) eqn:Hv.
    + destruct (bd_path _ _ _ Hdone v Hv) as (k & -> & _). lia.
    + by apply (bd_unvisited _ _ _ Hdone).
  - intros u x Hux Hu. by apply (bd_closed _ _ _ Hdone u).
  - intros v Hv Hne.
    destruct (bd_path _ _ _ Hdone v Hv) as (k & Hk & Hp).
    inversion Hp as [|k' u x Hp' Hedge]; subst; [done|].
    destruct (bfs_done_path _ _ b' Hdone k' u Hp') as [Hu Hdu].
    destruct (bd_closed _ _ _ Hdone u Hu v Hedge) as [_ Hle].
    destruct (bd_path _ _ _ Hdone u Hu) as (ku & Hku & _).
    exists u. split; [done|]. split; [done|]. lia.
Qed.

Lemma run_distances_consistent_witness :
  let gr := (add_edge (PInt 1) (PInt 2) 0
               (add_edge (PInt 0) (PInt 1) 0 (Graph_init 5 true)).2).2 in
  graph_wf gr
  ∧ Hash_hash (key_val (Scalar 0)) (g_h gr) = (Ok 0, g_h gr)
  ∧ Z.of_nat (size (g_h gr)) ≤ 5000000
  ∧ ∃ b', run (key_val (Scalar 0)) (BFS_init gr) = (Ok (), b')
          ∧ vis_at b' 0 = true ∧ dist_at b' 0 = 0.
Proof.
  intros gr.
  assert (Hwf : graph_wf gr) by (do 2 apply add_edge_wf; apply Graph_init_wf).
  assert (E : Hash_hash (key_val (Scalar 0)) (g_h gr) = (Ok 0, g_h gr))
    by (vm_compute; reflexivity).
  assert (Hcap : Z.of_nat (size (g_h gr)) ≤ 5000000)
    by (vm_compute; intros [=]).
  split; [exact Hwf|]. split; [exact E|]. split; [exact Hcap|].
  destruct (run_distances_consistent gr (Scalar 0) 0 (g_h gr) Hwf E Hcap)
    as (b' & Hrun & _ & _ & Hv & Hd & _).
  exists b'. split; [exact Hrun|]. split; [exact Hv|exact Hd].
Defined.

(** X12. A source whose adjacency list is empty, such as a key no edge
    starts from, reaches nothing: after [run] on a fresh traversal the
    source is visited at distance 0 and every other cell inside the arrays
    reads not visited, distance [-1]. *)
Theorem run_from_sink (gr : Graph) (source : NodeKey) (sid : Z) (t1 : Hash) :
  graph_wf gr →
  Hash_hash (key_val source) (g_h gr) = (Ok sid, t1) →
  Z.of_nat (size t1) ≤ 5000000 →
  pl_at (g_adj gr) sid = [] →
  ∃ b', run (key_val source) (BFS_init gr) = (Ok (), b')
    ∧ _is_visited_internal sid b' = (Ok true, b')
    ∧ _min_dist_internal sid b' = (Ok 0, b')
    ∧ ∀ v, 0 ≤ v < 5000000 → v ≠ sid →
           _is_visited_internal v b' = (Ok false, b')
           ∧ _min_dist_internal v b' = (Ok (-1), b').
Proof.
  intros Hwf E1 Hcap Hsink.
  destruct (run_fresh_done gr _ sid t1 Hwf E1 Hcap)
    as (b' & Hrun & Hg & Hdone & Hs & Hlen).
  assert (∀ k x, path (g_adj gr) sid k x → x = sid) as Hpath.
  { intros k x Hp. induction Hp as [|k v x _ -> [w Hw]]; [done|].
    rewrite Hsink in Hw. by apply elem_of_nil in Hw. }
  exists b'. split; [done|].
  destruct (bfs_done_reads (g_adj gr) sid b' sid Hdone) as [-> ->]; [lia|].
  destruct (bd_source _ _ _ Hdone) as [-> ->].
  split; [done|]. split; [done|].
  intros v Hv Hne.
  destruct (bfs_done_reads (g_adj gr) sid b' v Hdone) as [-> ->]; [lia|].
  destruct (bfs_done_unreachable _ _ b' v Hdone) as [-> ->]; [|done].
  intros [k Hp]. by apply Hpath in Hp.
Qed.

Lemma run_from_sink_witness :
  let gr := (add_edge (PInt 0) (PInt 1) 0 (Graph_init 5 true)).2 in
  graph_wf gr
  ∧ Hash_hash (key_val (Scalar 1)) (g_h gr) = (Ok 1, g_h gr)
  ∧ Z.of_nat (size (g_h gr)) ≤ 5000000
  ∧ pl_at (g_adj gr) 1 = []
  ∧ ∃ b', run (key_val (Scalar 1)) (BFS_init gr) = (Ok (), b')
          ∧ _is_visited_internal 0 b' = (Ok false, b').
Proof.
  intros gr.
  assert (Hwf : graph_wf gr) by (apply add_edge_wf, Graph_init_wf).
  assert (E : Hash_hash (key_val (Scalar 1)) (g_h gr) = (Ok 1, g_h gr))
    by (vm_compute; reflexivity).
  assert (Hcap : Z.of_nat (size (g_h gr)) ≤ 5000000)
    by (vm_compute; intros [=]).
  assert (Hsink : pl_at (g_adj gr) 1 = []) by (vm_compute; reflexivity).
  split; [exact Hwf|]. split; [exact E|]. split; [exact Hcap|].
  split; [exact Hsink|].
  destruct (run_from_sink gr (Scalar 1) 1 (g_h gr) Hwf E Hcap Hsink)
    as (b' & Hrun & _ & _ & Hrest).
  exists b'. split; [exact Hrun|].
  exact (proj1 (Hrest 0 ltac:(lia) ltac:(lia))).
Defined.

Lemma Hash_hash_seen (k : NodeKey) (t : Hash) (i : Z) :
  t !! normalize k = Some i → Hash_hash (key_val k) t = (Ok i, t).
Proof. intros H. by rewrite Hash_hash_key_val, hash_store_eq, H. Qed.

(** X13. Insertion and search compose: after [add_edge(a, b, w)] on a
    store that stays within capacity, [run(a)] on a fresh traversal returns
    and reports [b] as visited, at distance 1, or 0 when [a] and [b] are
    the same node. *)
Theorem add_edge_then_run (gr : Graph) (a b : NodeKey) (w ida idb : Z)
    (t1 t2 : Hash) :
  graph_wf gr →
  Hash_hash (key_val a) (g_h gr) = (Ok ida, t1) →
  Hash_hash (key_val b) t1 = (Ok idb, t2) →
  Z.of_nat (size t2) ≤ 5000000 →
  let gr' := (add_edge (key_val a) (key_val b) w gr).2 in
  ∃ b', run (key_val a) (BFS_init gr') = (Ok (), b')
    ∧ (is_visited (key_val b) b').1 = Ok true
    ∧ (min_dist (key_val b) b').1 = Ok (if decide (ida = idb) then 0 else 1).
Proof.
  intros Hwf E1 E2 Hcap gr'.
  destruct (Hash_hash_Ok_range _ _ _ _ (wf_hash _ Hwf) E1) as [Ra Hwf1].
  destruct (Hash_hash_Ok_range _ _ _ _ Hwf1 E2) as [Rb _].
  pose proof (Hash_hash_size (key_val b) t1) as Hs2.
  rewrite E2 in Hs2. simpl in Hs2.
  assert (pl_len (g_adj gr) = 5000000) as Hlen.
  { rewrite (wf_len _ Hwf). apply Hwf. }
  assert (graph_wf gr') as Hwf' by by apply add_edge_wf.
  assert (g_h gr' = t2 ∧ edge (g_adj gr') ida idb) as [Hh Hedge].
  { subst gr'.
    rewrite (add_edge_cases gr _ _ w ida idb t1 t2) by (done || lia).
    cbv zeta. rewrite Hlen.
    destruct (decide (ida < 5000000)); [|lia].
    destruct (g_is_directed gr); simpl.
    - split; [done|]. exists w. apply elem_of_adj_push. by right.
    - destruct (decide (idb < 5000000)); [|lia]. simpl.
      split; [done|]. exists w. rewrite !elem_of_adj_push. left. by right. }
  assert (t2 !! normalize a = Some ida ∧ t2 !! normalize b = Some idb)
    as [Hla Hlb].
  { apply Hash_hash_Ok_lookup in E1 as (ka & Hka & Hl1 & _ & _).
    apply Hash_hash_Ok_lookup in E2 as (kb & Hkb & Hl2 & Hsub & _).
    rewrite hash_key_key_val in Hka, Hkb. simplify_eq.
    split; [by eapply lookup_weaken|done]. }
  destruct (run_fresh_done gr' (key_val a) ida t2 Hwf')
    as (b' & Hrun & Hg & Hdone & _ & Hlen').
  { rewrite Hh. by apply Hash_hash_seen. }
  { done. }
  exists b'. split; [done|].
  destruct (bfs_done_reachable _ _ b' idb Hdone)
    as (k & [Hp Hmin] & Hvis & Hdist & Hrange).
  { exists 1%nat. eapply path_next; [constructor|done]. }
  assert (Z.of_nat k = if decide (ida = idb) then 0 else 1) as Hk.
  { destruct (decide (ida = idb)) as [->|Hne].
    - specialize (Hmin O (path_here _ _)). lia.
    - assert (k ≤ 1)%nat as Hle.
      { apply Hmin. eapply path_next; [constructor|done]. }
      destruct k as [|k]; [|lia]. inversion Hp. congruence. }
  assert (b_hash (key_val b) b' = (Ok idb, set_g (set_h t2 (g b')) b'))
    as Eh.
  { apply b_hash_Ok. rewrite Hg. simpl. by apply Hash_hash_seen. }
  unfold is_visited, min_dist, bind. rewrite Eh.
  unfold _is_visited_internal, _min_dist_internal, get_visited, get_dist.
  simpl. rewrite !pl_get_in_range.
  - fold (vis_at b' idb) (dist_at b' idb). by rewrite Hvis, Hdist, Hk.
  - by rewrite (bd_len_d _ _ _ Hdone).
  - by rewrite (bd_len_v _ _ _ Hdone).
Qed.

Lemma add_edge_then_run_witness :
  graph_wf (Graph_init 2 true)
  ∧ Hash_hash (key_val (Pair 0 0)) (g_h (Graph_init 2 true))
    = (Ok 0, {[ (0, 0, 0) := 0 ]})
  ∧ Hash_hash (key_val (Pair 1 1)) {[ (0, 0, 0) := 0 ]}
    = (Ok 1, <[ (1, 1, 0) := 1 ]> {[ (0, 0, 0) := 0 ]})
  ∧ Z.of_nat (size (<[ (1, 1, 0) := 1 ]> ({[ (0, 0, 0) := 0 ]} : Hash)))
    ≤ 5000000
  ∧ ∃ b', run (key_val (Pair 0 0))
            (BFS_init (add_edge (key_val (Pair 0 0)) (key_val (Pair 1 1)) 7
                         (Graph_init 2 true)).2) = (Ok (), b')
          ∧ (min_dist (key_val (Pair 1 1)) b').1 = Ok 1.
Proof.
  assert (E1 : Hash_hash (key_val (Pair 0 0)) (g_h (Graph_init 2 true))
               = (Ok 0, {[ (0, 0, 0) := 0 ]})) by reflexivity.
  assert (E2 : Hash_hash (key_val (Pair 1 1)) {[ (0, 0, 0) := 0 ]}
               = (Ok 1, <[ (1, 1, 0) := 1 ]> {[ (0, 0, 0) := 0 ]}))
    by reflexivity.
  assert (Hcap : Z.of_nat (size (<[ (1, 1, 0) := 1 ]>
                                  ({[ (0, 0, 0) := 0 ]} : Hash))) ≤ 5000000)
    by (vm_compute; intros [=]).
  split; [apply Graph_init_wf|]. split; [exact E1|]. split; [exact E2|].
  split; [exact Hcap|].
  destruct (add_edge_then_run (Graph_init 2 true) (Pair 0 0) (Pair 1 1)
              7 0 1 _ _ (Graph_init_wf 2 true) E1 E2 Hcap)
    as (b' & Hrun & _ & Hd).
  exists b'. split; [exact Hrun|exact Hd].
Defined.


Lemma bfs_loop_step (fuel : nat) (cur : Z) (q : list Z) (b : BFS) :
  bfs_loop (S fuel) (cur :: q) b
  = (let! l := get_adj cur in
     let! q'' := visit_neighbours cur l q in
     bfs_loop fuel q'') b.
Proof. done. Qed.

Lemma visit_neighbours_Ok_index (cur : Z) (l : adjlist) (q q' : list Z)
    (b b' : BFS) :
  visit_neighbours cur l q b = (Ok q', b') →
  ∀ v w, (v, w) ∈ l → is_Some (pl_index (visited b) v).
Proof.
  revert q b. induction l as [|[x y] l IH]; intros q b E v w Hin.
  { by apply elem_of_nil in Hin. }
  simpl in E. unfold bind, get_visited, pl_get in E.
  destruct (pl_index (visited b) x) as [jx|] eqn:Ejx; simpl in E; [|done].
  apply elem_of_cons in Hin as [[= -> ->]|Hin]; [by rewrite Ejx|].
  destruct (pl_at (visited b) jx); simpl in E; [by eapply IH|].
  unfold set_visited, pl_set in E. rewrite Ejx in E. simpl in E.
  unfold get_dist in E. simpl in E.
  destruct (pl_get (min_dist_from_source b) cur) as [dc|e|]; simpl in E;
    try done.
  unfold set_dist in E. simpl in E.
  destruct (pl_set (min_dist_from_source b) x (dc + 1)) as [d'|e|];
    simpl in E; try done.
  by apply (IH _ _ E v w).
Qed.

(** X14. An edge into an id beyond the arrays is accepted and breaks the
    search later: on a directed store, when [a] resolves inside the arrays
    and [b] at or beyond their length, [add_edge(a, b, w)] returns
    normally, and a following [run(a)] on a fresh traversal raises
    [IndexError]. *)
Theorem dangling_edge_breaks_run (gr : Graph) (a b : NodeKey) (w ida idb : Z)
    (t1 t2 : Hash) :
  graph_wf gr →
  g_is_directed gr = true →
  Hash_hash (key_val a) (g_h gr) = (Ok ida, t1) →
  Hash_hash (key_val b) t1 = (Ok idb, t2) →
  ida < 5000000 → 5000000 ≤ idb →
  let r := add_edge (key_val a) (key_val b) w gr in
  r.1 = Ok ()
  ∧ (run (key_val a) (BFS_init r.2)).1 = Raise IndexError.
Proof.
  intros Hwf Hd E1 E2 Ha Hb r.
  destruct (Hash_hash_Ok_range _ _ _ _ (wf_hash _ Hwf) E1) as [Ra Hwf1].
  assert (pl_len (g_adj gr) = 5000000) as Hlen.
  { rewrite (wf_len _ Hwf). apply Hwf. }
  assert (r = (Ok (),
               set_adj (adj_push ida (idb, w) (g_adj gr)) (set_h t2 gr)))
    as Hr.
  { subst r. rewrite (add_edge_cases gr _ _ w ida idb t1 t2)
      by (done || lia).
    cbv zeta. rewrite Hlen, Hd.
    by destruct (decide (ida < 5000000)). }
  rewrite Hr. simpl. split; [done|].
  assert (t2 !! normalize a = Some ida) as Hla.
  { apply Hash_hash_Ok_lookup in E1 as (ka & Hka & Hl1 & _ & _).
    apply Hash_hash_Ok_lookup in E2 as (kb & _ & _ & Hsub & _).
    rewrite hash_key_key_val in Hka. simplify_eq.
    by eapply lookup_weaken. }
  unfold run, bind, b_hash, g_hash. simpl.
  rewrite (Hash_hash_seen a t2 ida Hla). simpl.
  unfold _run_internal, bind, set_visited. simpl.
  rewrite pl_set_in_range by (simpl; rewrite (wf_N _ Hwf); lia). simpl.
  unfold set_dist. simpl.
  rewrite pl_set_in_range by (simpl; rewrite (wf_N _ Hwf); lia). simpl.
  unfold run_bound. rewrite bfs_loop_step. unfold bind, get_adj. simpl.
  rewrite pl_get_in_range by (simpl; lia). simpl.
  match goal with
  | |- (match ?m with _ => _ end).1 = _ => destruct m as [[q'|e|] b'] eqn:Ev
  end; simpl.
  - apply visit_neighbours_Ok_index with (v := idb) (w := w) in Ev.
    + simpl in Ev. rewrite pl_index_above in Ev; [by destruct Ev|lia|].
      simpl. rewrite (wf_N _ Hwf). lia.
    + apply elem_of_adj_push. by right.
  - f_equal. eapply visit_neighbours_raises. by rewrite Ev.
  - exfalso. eapply visit_neighbours_not_OutOfFuel. by rewrite Ev.
Qed.

Lemma store_at_capacity (k : nat) (n : Z) (d : bool) :
  Z.of_nat k = 5000000 →
  let gr := self_loops k (Graph_init n d) in
  graph_wf gr
  ∧ g_is_directed gr = d
  ∧ Hash_hash (PInt 0) (g_h gr) = (Ok 0, g_h gr)
  ∧ Hash_hash (PInt 5000000) (g_h gr)
    = (Ok 5000000, <[(5000000, 0, 0) := 5000000]> (g_h gr)).
Proof.
  intros Hk gr.
  destruct (self_loops_index k n d) as (Hwf & Hd & Hs & Hl); [lia|].
  fold gr in Hwf, Hd, Hs, Hl.
  split; [done|]. split; [done|]. split.
  - unfold Hash_hash. simpl. rewrite hash_store_eq, Hl.
    case_decide; [done|lia].
  - unfold Hash_hash. simpl. rewrite hash_store_eq, Hl, Hs, Hk.
    case_decide; [lia|done].
Qed.

Lemma dangling_edge_breaks_run_witness :
  let gr := full_store 0 true in
  graph_wf gr
  ∧ g_is_directed gr = true
  ∧ Hash_hash (key_val (Scalar 0)) (g_h gr) = (Ok 0, g_h gr)
  ∧ Hash_hash (key_val (Scalar 5000000)) (g_h gr)
    = (Ok 5000000, <[(5000000, 0, 0) := 5000000]> (g_h gr))
  ∧ 0 < 5000000 ∧ 5000000 ≤ 5000000
  ∧ (add_edge (key_val (Scalar 0)) (key_val (Scalar 5000000)) 1 gr).1 = Ok ()
  ∧ (run (key_val (Scalar 0))
       (BFS_init (add_edge (key_val (Scalar 0)) (key_val (Scalar 5000000))
                    1 gr).2)).1 = Raise IndexError.
Proof.
  intros gr.
  destruct (store_at_capacity (Z.to_nat 5000000) 0 true
              (Z2Nat.id 5000000 (Z.lt_le_incl 0 5000000 eq_refl)))
    as (Hwf & Hd & E1 & E2).
  assert (Ha : 0 < 5000000) by reflexivity.
  assert (Hb : 5000000 ≤ 5000000) by (intros [=]).
  split; [exact Hwf|]. split; [exact Hd|]. split; [exact E1|].
  split; [exact E2|]. split; [exact Ha|]. split; [exact Hb|].
  exact (dangling_edge_breaks_run gr (Scalar 0) (Scalar 5000000) 1 0 5000000
           _ _ Hwf Hd E1 E2 Ha Hb).
Defined.
